(** * pkg/queue: the retrying task queue of instance.go

    A shallow embedding of [queueImpl] and of the goroutines that work on
    it.  Every access to [tasks] and [closing] in the source happens between
    [q.cond.L.Lock()] and the matching [Unlock()], so each critical section
    is one atomic transition here.  The file instance.go carries both sides
    of a merge: the loop of [Run] exists as the block marked HEAD (lines
    138-160) and as the block that calls [processNextItem] (line 162).  Both
    are embedded, and the transition system takes the side as a parameter. *)

From Stdlib Require Import ZArith Lia.
From stdpp Require Import base option list strings.

Set Default Proof Using "Type".

(** ** Data *)

(** [time.Duration] is an int64 count of nanoseconds.  The queue stores and
    forwards it and never computes with it. *)
Definition Duration := Z.

(** A [chan struct{}] on which nothing is ever sent: all that can be seen of
    it is whether it has been closed. *)
Inductive chan := ChOpen | ChClosed.

(** Which side of the merge the loop of [Run] is taken from. *)
Inductive variant := RunHEAD | RunIncoming.

(** Why a goroutine stopped by panicking. *)
Inductive panic :=
  | IndexOutOfRange   (* q.tasks[0] on an empty slice *)
  | NilCall           (* task() on a nil func *)
  | TaskPanic         (* the body of the task panicked *)
  | CloseOfClosed.    (* close on a closed channel *)

(** The goroutine [go func() { <-stop; ... }()] of [Run]. *)
Inductive watcher_pc := WNotStarted | WWaiting | WDone.

Section Model.
Context {Fn Err Backoff : Type}.

(** [type Task func() error]: a func value, which may be nil. *)
Definition Task : Type := option Fn.

(** How a call [task()] ends: it returns an [error] (nil or not), or the
    body panics. *)
Inductive outcome :=
  | Returned (err : option Err)
  | Panicked.

(** [cond] stands for the wait list of [sync.Cond]: with the one consumer
    of [Run] it is the flag "the consumer is parked in [q.cond.Wait()]".
    [closeOnce] is the done flag of the [sync.Once]. *)
Record queueImpl := mkQueue {
  delay : Duration;
  retryBackoff : option Backoff;
  tasks : list Task;
  cond : bool;
  closing : bool;
  closed : chan;
  closeOnce : bool;
  id : string
}.

Definition set_tasks (ts : list Task) (q : queueImpl) : queueImpl :=
  mkQueue (delay q) (retryBackoff q) ts (cond q) (closing q) (closed q)
          (closeOnce q) (id q).
Definition set_cond (b : bool) (q : queueImpl) : queueImpl :=
  mkQueue (delay q) (retryBackoff q) (tasks q) b (closing q) (closed q)
          (closeOnce q) (id q).
Definition set_closing (b : bool) (q : queueImpl) : queueImpl :=
  mkQueue (delay q) (retryBackoff q) (tasks q) (cond q) b (closed q)
          (closeOnce q) (id q).
Definition set_closed (c : chan) (q : queueImpl) : queueImpl :=
  mkQueue (delay q) (retryBackoff q) (tasks q) (cond q) (closing q) c
          (closeOnce q) (id q).
Definition set_closeOnce (b : bool) (q : queueImpl) : queueImpl :=
  mkQueue (delay q) (retryBackoff q) (tasks q) (cond q) (closing q)
          (closed q) b (id q).
Definition set_retryBackoff (b : option Backoff) (q : queueImpl) : queueImpl :=
  mkQueue (delay q) b (tasks q) (cond q) (closing q) (closed q)
          (closeOnce q) (id q).
Definition set_id (name : string) (q : queueImpl) : queueImpl :=
  mkQueue (delay q) (retryBackoff q) (tasks q) (cond q) (closing q)
          (closed q) (closeOnce q) name.

(** ** Construction (lines 53-67) *)

(** [retryBackoff] is not listed in the composite literal, so it is nil. *)
Definition NewQueueWithID (errorDelay : Duration) (name : string) : queueImpl :=
  mkQueue errorDelay None [] false false ChOpen false name.

(** [rand.String(10)] is taken as the argument [rnd]. *)
Definition NewQueue (errorDelay : Duration) (rnd : string) : queueImpl :=
  NewQueueWithID errorDelay rnd.

(** ** The monitor *)

(** [q.cond.Signal()]: wakes the parked consumer, if there is one. *)
Definition cond_Signal (q : queueImpl) : queueImpl := set_cond false q.

(** [q.cond.Wait()]: parks the caller. *)
Definition cond_Wait (q : queueImpl) : queueImpl := set_cond true q.

(** [Push] (lines 69-76). *)
Definition Push (q : queueImpl) (item : Task) : queueImpl :=
  let q1 := if negb (closing q) then set_tasks (tasks q ++ [item]) q else q in
  cond_Signal q1.

(** [Closed] (lines 78-80). *)
Definition Closed (q : queueImpl) : chan := closed q.

(** What one pass through a locked dequeue section gives: the caller parks
    in [Wait] and will test the loop condition again once woken, or the
    section panics, or it returns [(task, shutdown)]. *)
Inductive got :=
  | GetWait (q' : queueImpl)
  | GetPanic (p : panic)
  | GetRet (task : Task) (shutdown : bool) (q' : queueImpl).

(** The loop condition of lines 88 and 140. *)
Definition must_wait (q : queueImpl) : bool :=
  negb (closing q) && (length (tasks q) =? 0)%nat.

(** [get] (lines 84-101). *)
Definition get (q : queueImpl) : got :=
  if must_wait q then GetWait (cond_Wait q)
  else if closing q then GetRet None true q
  else
    match tasks q !! 0%nat with
    | None => GetPanic IndexOutOfRange
    | Some task =>
        let q1 := set_tasks (<[0%nat := None]> (tasks q)) q in
        let q2 := set_tasks (drop 1 (tasks q1)) q1 in
        GetRet task false q2
    end.

(** The locked section of the HEAD loop (lines 139-152); [shutdown] is the
    [return] of line 147. *)
Definition Run_HEAD_get (q : queueImpl) : got :=
  if must_wait q then GetWait (cond_Wait q)
  else if (length (tasks q) =? 0)%nat then GetRet None true q
  else
    match tasks q !! 0%nat with
    | None => GetPanic IndexOutOfRange
    | Some task => GetRet task false (set_tasks (drop 1 (tasks q)) q)
    end.

Definition dequeue (v : variant) : queueImpl → got :=
  match v with
  | RunHEAD => Run_HEAD_get
  | RunIncoming => get
  end.

(** ** The running system *)

(** A timer armed by [time.AfterFunc(after, func() { q.Push(payload) })]. *)
Record timer := mkTimer {
  armed_at : Z;
  after : Duration;
  payload : Task
}.

(** The calls to the logger, with their format strings. *)
Inductive logline :=
  | Debugf (format : string) (arg : string)
  | Infof (format : string) (err : Err) (d : Duration).

(** What has happened so far (kept for the statements only). *)
Inductive event :=
  | EvDequeue (task : Task)   (* a locked section handed out [task] *)
  | EvCall (task : Task)      (* the loop called [task()] *)
  | EvClose.                  (* [close(q.closed)] was executed *)

(** The goroutine that called [Run]. *)
Inductive consumer_pc :=
  | CNotStarted
  | CLoop                  (* in a locked dequeue section, or parked in it *)
  | CExec (task : Task)    (* holds [task], lock released, about to call it *)
  | CReturned              (* [Run] has returned *)
  | CPanicked (p : panic). (* [Run] was left by a panic *)

Record sys := mkSys {
  q : queueImpl;
  now : Z;
  stop : bool;
  watcher : watcher_pc;
  consumer : consumer_pc;
  timers : list timer;
  logs : list logline;
  history : list event
}.

Definition set_q (x : queueImpl) (s : sys) : sys :=
  mkSys x (now s) (stop s) (watcher s) (consumer s) (timers s) (logs s)
        (history s).
Definition set_now (t : Z) (s : sys) : sys :=
  mkSys (q s) t (stop s) (watcher s) (consumer s) (timers s) (logs s)
        (history s).
Definition set_stop (b : bool) (s : sys) : sys :=
  mkSys (q s) (now s) b (watcher s) (consumer s) (timers s) (logs s)
        (history s).
Definition set_watcher (w : watcher_pc) (s : sys) : sys :=
  mkSys (q s) (now s) (stop s) w (consumer s) (timers s) (logs s)
        (history s).
Definition set_consumer (c : consumer_pc) (s : sys) : sys :=
  mkSys (q s) (now s) (stop s) (watcher s) c (timers s) (logs s)
        (history s).
Definition set_timers (ts : list timer) (s : sys) : sys :=
  mkSys (q s) (now s) (stop s) (watcher s) (consumer s) ts (logs s)
        (history s).
Definition log (l : logline) (s : sys) : sys :=
  mkSys (q s) (now s) (stop s) (watcher s) (consumer s) (timers s)
        (logs s ++ [l]) (history s).
Definition record (e : event) (s : sys) : sys :=
  mkSys (q s) (now s) (stop s) (watcher s) (consumer s) (timers s) (logs s)
        (history s ++ [e]).

(** A queue on which nothing has run yet. *)
Definition boot (x : queueImpl) : sys :=
  mkSys x 0 false WNotStarted CNotStarted [] [] [].

(** [close(q.closed)]: closing a closed channel panics. *)
Definition close_closed (s : sys) : option sys :=
  match closed (q s) with
  | ChClosed => None
  | ChOpen => Some (record EvClose (set_q (set_closed ChClosed (q s)) s))
  end.

(** [q.closeOnce.Do(f)]. *)
Definition closeOnce_Do (f : sys → option sys) (s : sys) : option sys :=
  if closeOnce (q s) then Some s
  else
    match f s with
    | Some s' => Some (set_q (set_closeOnce true (q s')) s')
    | None => None
    end.

(** The deferred function of [Run] (lines 123-128). *)
Definition Run_deferred (s : sys) : option sys :=
  closeOnce_Do
    (λ s0, close_closed (log (Debugf "closed queue %s" (id (q s0))) s0)) s.

(** Leaving [Run], by [return] or by a panic: the deferred function runs
    first. *)
Definition Run_leave (c : consumer_pc) (s : sys) : sys :=
  match Run_deferred s with
  | Some s' => set_consumer c s'
  | None => set_consumer (CPanicked CloseOfClosed) s
  end.

(** Entering [Run] (lines 122-135): the log line, the [defer], the [go]. *)
Definition Run_enter (s : sys) : sys :=
  set_consumer CLoop
    (set_watcher WWaiting (log (Debugf "started queue %s" (id (q s))) s)).

(** The goroutine of lines 129-135 once [<-stop] has returned. *)
Definition Run_watch (x : queueImpl) : queueImpl :=
  set_closing true (cond_Signal x).

(** One locked dequeue section of the loop: line 105-108 of
    [processNextItem] with the loop test of line 162, or lines 139-152. *)
Definition loop_get (v : variant) (s : sys) : sys :=
  match dequeue v (q s) with
  | GetWait q' => set_q q' s
  | GetPanic p => Run_leave (CPanicked p) s
  | GetRet _ true q' => Run_leave CReturned (set_q q' s)
  | GetRet task false q' =>
      set_consumer (CExec task) (record (EvDequeue task) (set_q q' s))
  end.

(** [time.AfterFunc(d, func() { q.Push(task) })]. *)
Definition time_AfterFunc (d : Duration) (task : Task) (s : sys) : sys :=
  set_timers (timers s ++ [mkTimer (now s) d task]) s.

(** Running the task: lines 111-118 of [processNextItem], the same text
    as lines 154-160.  [o] is how the call [task()] ends. *)
Definition loop_exec (o : outcome) (task : Task) (s : sys) : sys :=
  let s1 := record (EvCall task) s in
  match task with
  | None => Run_leave (CPanicked NilCall) s1
  | Some _ =>
      match o with
      | Panicked => Run_leave (CPanicked TaskPanic) s1
      | Returned None => set_consumer CLoop s1
      | Returned (Some err) =>
          let d := delay (q s1) in
          let s2 :=
            log (Infof "Work item handle failed (%v), retry after delay %v"
                       err d) s1 in
          set_consumer CLoop (time_AfterFunc d task s2)
      end
  end.

(** How a call of a method of the queue ends. *)
Inductive ended :=
  | RetBool (b : bool) (s : sys)
  | RetPanic (p : panic) (s : sys).

(** [processNextItem] (lines 103-119) when nothing else runs between its
    [get] and its call of the task: [None] while [get] blocks, else how
    it ends.  [o] is how the call [task()] ends. *)
Definition processNextItem (o : outcome) (s : sys) : option ended :=
  match get (q s) with
  | GetWait _ => None
  | GetPanic p => Some (RetPanic p s)
  | GetRet _ true q' => Some (RetBool false (set_q q' s))
  | GetRet task false q' =>
      let s1 := record (EvCall task) (record (EvDequeue task) (set_q q' s)) in
      match task, o with
      | None, _ => Some (RetPanic NilCall s1)
      | Some _, Panicked => Some (RetPanic TaskPanic s1)
      | Some _, Returned None => Some (RetBool true s1)
      | Some _, Returned (Some err) =>
          let delay := delay (q s1) in
          let s2 :=
            log (Infof "Work item handle failed (%v), retry after delay %v"
                       err delay) s1 in
          Some (RetBool true (time_AfterFunc delay task s2))
      end
  end.

(** A timer may run its function once [after] has elapsed. *)
Definition due (tm : timer) (s : sys) : bool :=
  (armed_at tm + after tm <=? now s)%Z.

(** What the environment and the goroutines can do. *)
Inductive label :=
  | LPush (item : Task)   (* a producer calls [q.Push(item)] *)
  | LRun                  (* the owner calls [q.Run(stop)] *)
  | LStop                 (* [stop] is signalled *)
  | LWatch                (* the goroutine of [Run] gets past [<-stop] *)
  | LGet                  (* the loop runs a locked dequeue section *)
  | LExec (o : outcome)   (* the loop calls the task it holds *)
  | LTick (d : Z)         (* [d] nanoseconds pass *)
  | LFire (i : nat).      (* the function of timer [i] runs *)

Definition step (v : variant) (l : label) (s : sys) : option sys :=
  match l with
  | LPush item => Some (set_q (Push (q s) item) s)
  | LRun =>
      match consumer s with
      | CNotStarted => Some (Run_enter s)
      | _ => None
      end
  | LStop => if stop s then None else Some (set_stop true s)
  | LWatch =>
      match watcher s with
      | WWaiting =>
          if stop s then Some (set_watcher WDone (set_q (Run_watch (q s)) s))
          else None
      | _ => None
      end
  | LGet =>
      match consumer s with
      | CLoop => if cond (q s) then None else Some (loop_get v s)
      | _ => None
      end
  | LExec o =>
      match consumer s with
      | CExec task => Some (loop_exec o task s)
      | _ => None
      end
  | LTick d => if (0 <=? d)%Z then Some (set_now (now s + d) s) else None
  | LFire i =>
      match timers s !! i with
      | Some tm =>
          if due tm s
          then Some (set_q (Push (q s) (payload tm))
                           (set_timers (delete i (timers s)) s))
          else None
      | None => None
      end
  end.

(** A schedule, run from left to right; [None] when some step of it is
    not enabled. *)
Fixpoint run (v : variant) (ls : list label) (s : sys) : option sys :=
  match ls with
  | [] => Some s
  | l :: ls' =>
      match step v l s with
      | Some s' => run v ls' s'
      | None => None
      end
  end.

(** The states a queue built by [NewQueueWithID] can get into. *)
Definition reachable (v : variant) (d : Duration) (name : string) (s : sys) : Prop :=
  ∃ ls, run v ls (boot (NewQueueWithID d name)) = Some s.

End Model.

(** ** Vocabulary of the statements *)

Section Vocabulary.
Context {Fn Err Backoff : Type}.

(** [Run] is over: it returned or was left by a panic. *)
Definition finished (c : @consumer_pc Fn) : bool :=
  match c with
  | CReturned | CPanicked _ => true
  | _ => false
  end.

(** How often [close(q.closed)] was executed. *)
Fixpoint closes (h : list (@event Fn)) : nat :=
  match h with
  | [] => 0
  | EvClose :: h' => S (closes h')
  | _ :: h' => closes h'
  end.

(** How often a schedule lets the watcher goroutine set [closing]. *)
Fixpoint watches (ls : list (@label Fn Err)) : nat :=
  match ls with
  | [] => 0
  | LWatch :: ls' => S (watches ls')
  | _ :: ls' => watches ls'
  end.

(** The consumer working alone through [jobs]: for each job one locked
    dequeue section, then the call, which returns the job's error. *)
Definition consume (jobs : list (Fn * option Err)) : list (@label Fn Err) :=
  flat_map (λ j, [LGet; LExec (Returned j.2)]) jobs.

(** What [consume] leaves in the history. *)
Definition consumed (jobs : list (Fn * option Err)) : list (@event Fn) :=
  flat_map (λ j, [EvDequeue (Some j.1); EvCall (Some j.1)]) jobs.

(** The same system with another value in the [retryBackoff] slot. *)
Definition with_backoff (b : option Backoff) (s : @sys Fn Err Backoff) : sys :=
  set_q (set_retryBackoff b (q s)) s.

(** A log line without the identifier it may carry. *)
Definition scrub_line (l : @logline Err) : logline :=
  match l with
  | Debugf format _ => Debugf format ""
  | Infof format err d => Infof format err d
  end.

(** A system without its identifier: the [id] field and the argument of
    the debug lines are blanked, everything else is kept. *)
Definition scrub (s : @sys Fn Err Backoff) : sys :=
  mkSys (set_id "" (q s)) (now s) (stop s) (watcher s) (consumer s)
        (timers s) (scrub_line <$> logs s) (history s).

(** [got] with a function applied to the queue it carries. *)
Definition got_map (f : @queueImpl Fn Backoff → @queueImpl Fn Backoff)
    (g : @got Fn Backoff) : @got Fn Backoff :=
  match g with
  | GetWait x => GetWait (f x)
  | GetPanic p => GetPanic p
  | GetRet task sd x => GetRet task sd (f x)
  end.

(** What holds in every state a queue built with delay [d] gets into. *)
Definition Inv (d : Duration) (s : @sys Fn Err Backoff) : Prop :=
  delay (q s) = d
  ∧ retryBackoff (q s) = None
  ∧ Forall (λ tm, after tm = d) (timers s)
  ∧ (cond (q s) = true → closing (q s) = false ∧ consumer s = CLoop)
  ∧ closeOnce (q s) = finished (consumer s)
  ∧ closed (q s) = (if finished (consumer s) then ChClosed else ChOpen)
  ∧ (if finished (consumer s)
     then ∃ h, history s = h ++ [EvClose] ∧ closes h = 0
     else closes (history s) = 0)
  ∧ (watcher s = WNotStarted ↔ consumer s = CNotStarted)
  ∧ (closing (q s) = true → watcher s = WDone)
  ∧ consumer s ≠ CPanicked IndexOutOfRange
  ∧ consumer s ≠ CPanicked CloseOfClosed.

(** The tasks the dequeue sections have handed out, oldest first. *)
Fixpoint dequeued (h : list (@event Fn)) : list (@Task Fn) :=
  match h with
  | [] => []
  | EvDequeue task :: h' => task :: dequeued h'
  | _ :: h' => dequeued h'
  end.

(** The tasks the loop has called, oldest first. *)
Fixpoint called (h : list (@event Fn)) : list (@Task Fn) :=
  match h with
  | [] => []
  | EvCall task :: h' => task :: called h'
  | _ :: h' => called h'
  end.

(** The task the loop has taken and not called yet. *)
Definition held (c : @consumer_pc Fn) : list (@Task Fn) :=
  match c with
  | CExec task => [task]
  | _ => []
  end.

(** What a step appends to [tasks]: the argument of a [Push], by a producer
    or by a timer, made while [closing] is unset. *)
Definition admits (l : @label Fn Err) (s : @sys Fn Err Backoff) : list (@Task Fn) :=
  match l with
  | LPush item => if closing (q s) then [] else [item]
  | LFire i =>
      match timers s !! i with
      | Some tm => if closing (q s) then [] else [payload tm]
      | None => []
      end
  | _ => []
  end.

(** What a schedule appends to [tasks], in the order of the steps. *)
Fixpoint admitted (v : variant) (ls : list (@label Fn Err))
    (s : @sys Fn Err Backoff) : list (@Task Fn) :=
  match ls with
  | [] => []
  | l :: ls' =>
      match step v l s with
      | Some s' => admits l s ++ admitted v ls' s'
      | None => []
      end
  end.

(** A log line of the queue built with delay [d] and identifier [name]. *)
Definition log_ok (d : Duration) (name : string) (l : @logline Err) : Prop :=
  match l with
  | Debugf _ arg => arg = name
  | Infof _ _ d' => d' = d
  end.

(** A pending retry: armed in the past, for a task that is not nil and has
    been called. *)
Definition timer_ok (s : @sys Fn Err Backoff) (tm : @timer Fn) : Prop :=
  (armed_at tm ≤ now s)%Z
  ∧ payload tm ≠ None
  ∧ EvCall (payload tm) ∈ history s.

(** The monitor keeps the consumer parked only while there is nothing to
    do, and the watcher is done only once [closing] is set. *)
Definition Monitor_ok (s : @sys Fn Err Backoff) : Prop :=
  (cond (q s) = true → tasks (q s) = [])
  ∧ (watcher s = WDone → closing (q s) = true).

(** What the diagnostics of a queue built with [d] and [name] look like. *)
Definition Logs_ok (d : Duration) (name : string) (s : @sys Fn Err Backoff) : Prop :=
  id (q s) = name
  ∧ Forall (log_ok d name) (logs s)
  ∧ match consumer s with
    | CNotStarted => logs s = []
    | _ => ∃ rest, logs s = Debugf "started queue %s" name :: rest
    end
  ∧ (finished (consumer s) = true →
     ∃ before, logs s = before ++ [Debugf "closed queue %s" name]).

End Vocabulary.

(** ** Sample values: tasks named by strings, errors as strings *)

Module Sample.
Definition Q : Type := @queueImpl string unit.
Definition S : Type := @sys string string unit.
Definition L : Type := @label string string.

Definition t1 : @Task string := Some "t1".
Definition t2 : @Task string := Some "t2".
Definition t3 : @Task string := Some "t3".

(** A queue with delay 5 and the label [demo]. *)
Definition fresh : Q := NewQueueWithID 5%Z "demo".

(** Two tasks buffered, then shutdown requested. *)
Definition closing_with_two : Q :=
  mkQueue 5%Z None [t1; t2] false true ChOpen false "demo".

(** Two tasks buffered, no shutdown. *)
Definition open_with_two : Q :=
  mkQueue 5%Z None [t1; t2] false false ChOpen false "demo".

(** Scenario B up to the point where the watcher has set [closing]. *)
Definition stop_with_two : list L :=
  [LPush t1; LPush t2; LRun; LStop; LWatch].

(** The state [stop_with_two] leads to. *)
Definition stopped_with_two : S :=
  mkSys closing_with_two 0%Z true WDone CLoop []
        [Debugf "started queue %s" "demo"] [].

(** Scenario A up to the failure of [t2]: [t1] succeeds, [t2] fails. *)
Definition until_t2_fails : list L :=
  [LPush t1; LPush t2; LPush t3; LRun;
   LGet; LExec (Returned None);
   LGet; LExec (Returned (Some "boom"))].

(** The rest of scenario A: [t3] succeeds, the delay passes, the timer
    pushes [t2] again, and this time it succeeds. *)
Definition t3_then_retry : list L :=
  [LGet; LExec (Returned None);
   LTick 5; LFire 0%nat;
   LGet; LExec (Returned None)].

(** Scenario C: a push after the watcher has set [closing]. *)
Definition push_after_stop : list L :=
  [LRun; LPush t1; LGet; LExec (Returned None); LStop; LWatch; LPush t2; LGet].

(** The consumer parked on the empty queue, [Run] under way. *)
Definition parked : S :=
  mkSys (mkQueue 5%Z None [] true false ChOpen false "demo") 0%Z false
        WWaiting CLoop [] [Debugf "started queue %s" "demo"] [].

(** The schedule that leads to [parked]. *)
Definition park : list L := [LRun; LGet].

(** Shutdown requested while [t1] and [t2] are buffered, with their
    outcomes: [t1] fails, [t2] succeeds. *)
Definition two_jobs : list (string * option string) :=
  [("t1", Some "boom"); ("t2", None)].

(** The consumer parked, and the stop signalled. *)
Definition parked_at_stop : S :=
  mkSys (mkQueue 5%Z None [] true false ChOpen false "demo") 0%Z true
        WWaiting CLoop [] [Debugf "started queue %s" "demo"] [].

(** The schedule that leads to [parked_at_stop]. *)
Definition park_then_stop : list L := [LRun; LGet; LStop].

(** The loop holds a nil task that a producer pushed. *)
Definition holding_nil : S :=
  mkSys (mkQueue 5%Z None [t2] false false ChOpen false "demo") 0%Z false
        WWaiting (CExec None) [] [Debugf "started queue %s" "demo"]
        [EvDequeue None].

(** The schedule that leads to [holding_nil]. *)
Definition take_nil : list L := [LPush None; LPush t2; LRun; LGet].

(** [t1] has failed and its retry is pending when shutdown is requested. *)
Definition retry_pending_at_stop : list L :=
  [LPush t1; LRun; LGet; LExec (Returned (Some "boom")); LStop; LWatch;
   LTick 5].

(** The state [retry_pending_at_stop] leads to. *)
Definition stopped_with_retry : S :=
  mkSys (mkQueue 5%Z None [] false true ChOpen false "demo") 5%Z true
        WDone CLoop [mkTimer 0%Z 5%Z t1]
        [Debugf "started queue %s" "demo";
         Infof "Work item handle failed (%v), retry after delay %v" "boom" 5%Z]
        [EvDequeue t1; EvCall t1].

(** The loop holds [t1], which it took from [open_with_two]. *)
Definition holding_t1 : S :=
  mkSys (mkQueue 5%Z None [t2] false false ChOpen false "demo") 0%Z false
        WWaiting (CExec t1) [] [Debugf "started queue %s" "demo"]
        [EvDequeue t1].
End Sample.

(** ** Proof steps shared by the invariant lemmas *)

Ltac inv_open :=
  intros (Hd & Hb & Ht & Hp & Ho & Hc & Hh & Hw & Hcl & Hi & Hcc).

Ltac inv_crush :=
  unfold Inv; simpl in *;
  repeat match goal with
    | H : consumer ?s = _ |- context [consumer ?s] => rewrite H
    | H : watcher ?s = _ |- context [watcher ?s] => rewrite H
    end;
  simpl; repeat split; intros;
  repeat match goal with
    | H : ?a = ?b → _, H' : ?a = ?b |- _ => specialize (H H')
    | H : ?a = ?a → _ |- _ => specialize (H eq_refl)
    | H : _ ∧ _ |- _ => destruct H
    | H : _ ↔ _ |- _ => destruct H
    end;
  try done; try congruence; eauto.

(** ** The locked sections *)

Section Monitor.
Context {Fn Backoff : Type}.
Implicit Types (x : @queueImpl Fn Backoff) (item task : @Task Fn).

Lemma must_wait_false x :
  must_wait x = false ↔ closing x = true ∨ tasks x ≠ [].
Proof.
  unfold must_wait. destruct (closing x), (tasks x); simpl; split;
    intros; try done; auto; by destruct H.
Qed.

Lemma must_wait_true x :
  must_wait x = true ↔ closing x = false ∧ tasks x = [].
Proof.
  unfold must_wait. destruct (closing x), (tasks x); simpl; split;
    intros; try done; by destruct H.
Qed.

(** The nil written into slot 0 leaves with the slot. *)
Lemma drop_cleared_head (ts : list (@Task Fn)) :
  drop 1 (<[0%nat := None]> ts) = drop 1 ts.
Proof. by destruct ts. Qed.

Lemma get_head x task rest :
  closing x = false → tasks x = task :: rest →
  get x = GetRet task false (set_tasks rest x).
Proof.
  intros Hc Ht. unfold get, must_wait. rewrite Hc, Ht. simpl.
  by destruct x.
Qed.

Lemma Run_HEAD_get_head x task rest :
  tasks x = task :: rest →
  Run_HEAD_get x = GetRet task false (set_tasks rest x).
Proof.
  intros Ht. unfold Run_HEAD_get, must_wait. rewrite Ht. simpl.
  rewrite andb_false_r. by destruct x.
Qed.

Lemma dequeue_head v x task rest :
  closing x = false → tasks x = task :: rest →
  dequeue v x = GetRet task false (set_tasks rest x).
Proof.
  destruct v; simpl; eauto using get_head, Run_HEAD_get_head.
Qed.

Lemma get_no_panic x p : get x ≠ GetPanic p.
Proof.
  unfold get, must_wait.
  destruct (closing x), (tasks x); simpl; discriminate.
Qed.

Lemma Run_HEAD_get_no_panic x p : Run_HEAD_get x ≠ GetPanic p.
Proof.
  unfold Run_HEAD_get, must_wait.
  destruct (closing x), (tasks x); simpl; discriminate.
Qed.

Lemma dequeue_no_panic v x p : dequeue v x ≠ GetPanic p.
Proof. destruct v; [apply Run_HEAD_get_no_panic | apply get_no_panic]. Qed.

(** When the incoming side reports shutdown: as soon as [closing] is set,
    whatever is buffered. *)
Lemma get_shutdown_iff x task x' :
  get x = GetRet task true x' ↔ closing x = true ∧ task = None ∧ x' = x.
Proof.
  unfold get, must_wait.
  destruct (closing x) eqn:Hc, (tasks x) eqn:Ht; simpl; split;
    try (intros [= <- <-]; done); try discriminate;
    try (intros (? & -> & ->); done); by intros (? & _).
Qed.

(** When the HEAD side leaves the loop: [closing] is set and nothing is
    buffered. *)
Lemma Run_HEAD_get_shutdown_iff x task x' :
  Run_HEAD_get x = GetRet task true x'
  ↔ closing x = true ∧ tasks x = [] ∧ task = None ∧ x' = x.
Proof.
  unfold Run_HEAD_get, must_wait.
  destruct (closing x) eqn:Hc, (tasks x) eqn:Ht; simpl; split;
    try (intros [= <- <-]; done); try discriminate;
    try (intros (? & ? & -> & ->); done); by intros (? & ? & _).
Qed.

(** A dequeue section waits only with [closing] unset and nothing
    buffered; it changes nothing but the wait list. *)
Lemma dequeue_wait v x x' :
  dequeue v x = GetWait x' →
  closing x = false ∧ tasks x = [] ∧ x' = cond_Wait x.
Proof.
  destruct v; simpl; unfold Run_HEAD_get, get, must_wait;
    destruct (closing x), (tasks x); simpl; try discriminate;
    by intros [= <-].
Qed.

(** A dequeue section that hands out a task removes the head and nothing
    else. *)
Lemma dequeue_task v x task x' :
  dequeue v x = GetRet task false x' →
  tasks x = task :: tasks x' ∧ x' = set_tasks (tasks x') x.
Proof.
  destruct v; simpl; unfold Run_HEAD_get, get, must_wait;
    destruct (closing x), (tasks x) as [|t ts] eqn:Ht; simpl;
    try discriminate; intros [= <- <-]; by destruct x.
Qed.

(** A dequeue section that reports shutdown changes nothing. *)
Lemma dequeue_shutdown v x task x' :
  dequeue v x = GetRet task true x' →
  closing x = true ∧ task = None ∧ x' = x.
Proof.
  destruct v; simpl.
  - intros H%Run_HEAD_get_shutdown_iff. tauto.
  - intros H%get_shutdown_iff. tauto.
Qed.

End Monitor.

(** ** The invariant *)

Section Invariant.
Context {Fn Err Backoff : Type}.
Implicit Types (x : @queueImpl Fn Backoff) (s : @sys Fn Err Backoff).
Implicit Types (l : @label Fn Err) (ls : list (@label Fn Err)).

Lemma closes_app (h1 h2 : list (@event Fn)) :
  closes (h1 ++ h2) = (closes h1 + closes h2)%nat.
Proof.
  induction h1 as [|[] h1 IH]; simpl; auto.
Qed.

Lemma run_app v ls1 ls2 s :
  run v (ls1 ++ ls2) s = run v ls1 s ≫= run v ls2.
Proof.
  revert s. induction ls1 as [|l ls1 IH]; intros s; simpl; [done|].
  destruct (step v l s); simpl; auto.
Qed.

Lemma run_one v l s : run v [l] s = step v l s.
Proof. simpl. by destruct (step v l s). Qed.

Lemma Inv_boot d name :
  Inv d (boot (Err := Err) (NewQueueWithID (Fn := Fn) (Backoff := Backoff) d name)).
Proof.
  unfold Inv; simpl. repeat split; try done; constructor.
Qed.

(** The first (and only effective) run of the deferred function. *)
Lemma Run_deferred_first s :
  closeOnce (q s) = false → closed (q s) = ChOpen →
  Run_deferred s =
    Some (set_q (set_closeOnce true (set_closed ChClosed (q s)))
            (record EvClose (log (Debugf "closed queue %s" (id (q s))) s))).
Proof.
  intros Ho Hc. unfold Run_deferred, closeOnce_Do, close_closed.
  rewrite Ho. simpl. by rewrite Hc.
Qed.

(** Every later run of it does nothing. *)
Lemma Run_deferred_again s :
  closeOnce (q s) = true → Run_deferred s = Some s.
Proof.
  intros Ho. unfold Run_deferred, closeOnce_Do. by rewrite Ho.
Qed.

Lemma Run_leave_first c s :
  closeOnce (q s) = false → closed (q s) = ChOpen →
  Run_leave c s =
    set_consumer c
      (set_q (set_closeOnce true (set_closed ChClosed (q s)))
         (record EvClose (log (Debugf "closed queue %s" (id (q s))) s))).
Proof.
  intros Ho Hc. unfold Run_leave. by rewrite Run_deferred_first.
Qed.

Lemma Inv_leave d c s :
  Inv d s → finished (consumer s) = false → consumer s ≠ CNotStarted →
  cond (q s) = false →
  finished c = true → c ≠ CPanicked IndexOutOfRange →
  c ≠ CPanicked CloseOfClosed →
  Inv d (Run_leave c s).
Proof.
  intros (Hd & Hb & Ht & Hp & Ho & Hc & Hh & Hw & Hcl & Hi & Hcc)
         Hf Hns Hcd Hfc Hci Hcc'.
  rewrite Hf in *. rewrite Run_leave_first by done.
  unfold Inv; simpl. rewrite Hfc.
  repeat split; try done; try congruence.
  - exists (history s). by split.
  - intros Hw'. apply Hw in Hw'. done.
  - intros ->. done.
Qed.

Lemma Inv_Push d s item :
  Inv d s → Inv d (set_q (Push (q s) item) s).
Proof.
  inv_open. unfold Push, cond_Signal.
  destruct (closing (q s)) eqn:E; inv_crush.
Qed.

Lemma Inv_record d s e :
  Inv d s → closes [e] = 0 → finished (consumer s) = false →
  Inv d (record e s).
Proof.
  inv_open. intros He Hf. rewrite Hf in *.
  unfold Inv; simpl. rewrite Hf, closes_app, Hh, He. inv_crush.
Qed.

Lemma Inv_unparked d s :
  Inv d s → consumer s ≠ CLoop → cond (q s) = false.
Proof.
  inv_open. intros Hne. destruct (cond (q s)); [|done].
  destruct Hp; done.
Qed.

Lemma Inv_step d v l s s' :
  Inv d s → step v l s = Some s' → Inv d s'.
Proof.
  intros HI Hs. destruct l as [item| | | | |o|t|i]; simpl in Hs.
  - injection Hs as <-. by apply Inv_Push.
  - destruct (consumer s) eqn:Ec; try discriminate. injection Hs as <-.
    revert HI. inv_open. rewrite Ec in *. unfold Run_enter. inv_crush.
  - destruct (stop s); try discriminate. by injection Hs as <-.
  - destruct (watcher s) eqn:Ew; try discriminate.
    destruct (stop s); try discriminate. injection Hs as <-.
    revert HI. inv_open. rewrite Ew in *. unfold Run_watch. inv_crush.
  - destruct (consumer s) eqn:Ec; try discriminate.
    destruct (cond (q s)) eqn:Ecd; try discriminate. injection Hs as <-.
    unfold loop_get. destruct (dequeue v (q s)) as [x'|p|task [] x'] eqn:Eg.
    + apply dequeue_wait in Eg as (Hcg & Hts & ->).
      revert HI. inv_open. rewrite Ec in *. unfold cond_Wait. inv_crush.
    + by apply dequeue_no_panic in Eg.
    + apply dequeue_shutdown in Eg as (Hcg & -> & ->).
      replace (set_q (q s) s) with s by by destruct s.
      apply Inv_leave; try done; rewrite Ec; done.
    + apply dequeue_task in Eg as (Hts & Hx').
      revert HI. inv_open. rewrite Ec in *. rewrite Hx'.
      unfold Inv; simpl. rewrite closes_app, Hh. inv_crush.
  - destruct (consumer s) as [| |task| |] eqn:Ec; try discriminate.
    injection Hs as <-.
    assert (Hcd : cond (q s) = false).
    { apply (Inv_unparked d); [done|]. by rewrite Ec. }
    assert (HI1 : Inv d (record (EvCall task) s)).
    { apply Inv_record; [done..|]. by rewrite Ec. }
    unfold loop_exec. destruct task as [f|].
    + destruct o as [[err|]|].
      * revert HI1. inv_open. simpl in *. rewrite Ec in *.
        unfold time_AfterFunc. inv_crush.
        apply Forall_app. split; [done|]. by constructor.
      * revert HI1. inv_open. simpl in *. rewrite Ec in *. inv_crush.
      * apply Inv_leave; simpl; try done; rewrite Ec; done.
    + apply Inv_leave; simpl; try done; rewrite Ec; done.
  - destruct (0 <=? t)%Z; try discriminate. by injection Hs as <-.
  - destruct (timers s !! i) as [tm|] eqn:Et; try discriminate.
    destruct (due tm s); try discriminate. injection Hs as <-.
    apply (Inv_Push d (set_timers (delete i (timers s)) s)).
    revert HI. inv_open. inv_crush. by apply Forall_delete.
Qed.

Lemma Inv_run d v ls s s' :
  Inv d s → run v ls s = Some s' → Inv d s'.
Proof.
  revert s. induction ls as [|l ls IH]; intros s HI; simpl.
  - by intros [= <-].
  - destruct (step v l s) as [s1|] eqn:E; [|done].
    eauto using Inv_step.
Qed.

Lemma Inv_reachable v d name s : reachable v d name s → Inv d s.
Proof.
  intros [ls Hls]. eapply Inv_run, Hls. apply Inv_boot.
Qed.

End Invariant.

(** ** Schedules of the consumer alone *)

Section Consumer.
Context {Fn Err Backoff : Type}.
Implicit Types (x : @queueImpl Fn Backoff) (s : @sys Fn Err Backoff).
Implicit Types (jobs : list (Fn * option Err)).

Lemma set_tasks_same x : set_tasks (tasks x) x = x.
Proof. by destruct x. Qed.

Lemma set_q_same s : set_q (q s) s = s.
Proof. by destruct s. Qed.

Lemma cond_Signal_awake x : cond x = false → cond_Signal x = x.
Proof. destruct x; simpl. by intros ->. Qed.

Lemma Push_open x (item : @Task Fn) :
  closing x = false → cond x = false →
  Push x item = set_tasks (tasks x ++ [item]) x.
Proof. destruct x; simpl. intros -> ->. done. Qed.

(** Pushing [ts] one after the other onto a queue that accepts work. *)
Lemma run_pushes v (ts : list (@Task Fn)) (rest : list (@label Fn Err)) s :
  closing (q s) = false → cond (q s) = false →
  run v ((LPush <$> ts) ++ rest) s
  = run v rest (set_q (set_tasks (tasks (q s) ++ ts) (q s)) s).
Proof.
  revert s. induction ts as [|t ts IH]; intros s Hc Hp; simpl.
  - by rewrite app_nil_r, set_tasks_same, set_q_same.
  - rewrite (Push_open _ _ Hc Hp), IH by done. simpl.
    by rewrite <- app_assoc.
Qed.

Lemma dequeue_head_draining v x task rest :
  closing x = false ∨ v = RunHEAD → tasks x = task :: rest →
  dequeue v x = GetRet task false (set_tasks rest x).
Proof.
  intros [Hc | ->] Ht; [by apply dequeue_head|].
  by apply Run_HEAD_get_head.
Qed.

(** The consumer takes and calls the jobs at the head of the buffer, in
    the order of the buffer; the queue changes in [tasks] only. *)
Lemma run_consume v jobs (more : list (@Task Fn)) s :
  consumer s = CLoop → cond (q s) = false →
  closing (q s) = false ∨ v = RunHEAD →
  tasks (q s) = ((λ j, Some j.1) <$> jobs) ++ more →
  ∃ s', run v (consume jobs) s = Some s'
        ∧ history s' = history s ++ consumed jobs
        ∧ q s' = set_tasks more (q s)
        ∧ consumer s' = CLoop.
Proof.
  revert s. induction jobs as [|[f e] jobs IH]; intros s Hpc Hcd Hcl Hts.
  - exists s. simpl in *. rewrite app_nil_r, <- Hts, set_tasks_same. done.
  - simpl in Hts. simpl. rewrite Hpc, Hcd. unfold loop_get.
    rewrite (dequeue_head_draining v _ _ _ Hcl Hts). simpl.
    match goal with
    | |- context [run v (consume jobs) ?t] => set (s1 := t)
    end.
    assert (H1 : consumer s1 = CLoop ∧
                 q s1 = set_tasks (((λ j, Some j.1) <$> jobs) ++ more) (q s) ∧
                 history s1 = history s ++ [EvDequeue (Some f); EvCall (Some f)]).
    { subst s1. destruct e; simpl; rewrite <- app_assoc; done. }
    destruct H1 as (Hpc1 & Hq1 & Hh1).
    destruct (IH s1) as (s' & Hrun & Hh & Hq & Hpc'); try done.
    + by rewrite Hq1.
    + by rewrite Hq1.
    + by rewrite Hq1.
    + exists s'. split; [done|]. rewrite Hh, Hh1, Hq, Hq1.
      rewrite <- app_assoc. done.
Qed.

(** The loop [for q.processNextItem() {}] of line 162, cut into the steps
    of the system: a pass that blocks is a dequeue section that parks; a
    pass that returns true is a dequeue section and a call, after which
    the loop is at its head again; a pass that returns false, or panics,
    ends [Run], and the deferred function runs. *)
Lemma processNextItem_steps (o : @outcome Err) s :
  consumer s = CLoop → cond (q s) = false →
  match processNextItem o s with
  | None => step RunIncoming LGet s = Some (set_q (cond_Wait (q s)) s)
  | Some (RetBool true s') => run RunIncoming [LGet; LExec o] s = Some s'
  | Some (RetBool false s') =>
      step RunIncoming LGet s = Some (Run_leave CReturned s')
  | Some (RetPanic p s') =>
      run RunIncoming [LGet; LExec o] s = Some (Run_leave (CPanicked p) s')
  end.
Proof.
  intros Hpc Hcd. unfold processNextItem. simpl.
  rewrite Hpc, Hcd. unfold loop_get. simpl.
  destruct (get (q s)) as [x'|p|task [] x'] eqn:Eg.
  - by apply (dequeue_wait RunIncoming) in Eg as (_ & _ & ->).
  - by apply get_no_panic in Eg.
  - done.
  - simpl. unfold loop_exec.
    destruct task as [f|], o as [[e|]|]; simpl; try done;
      unfold Run_leave, Run_deferred, closeOnce_Do, close_closed; simpl;
      destruct (closeOnce x'), (closed x'); simpl;
      destruct s; simpl in *; by subst.
Qed.

(** HEAD side: once [closing] is set, the loop works through what is
    buffered and only then leaves and closes. *)
Lemma Run_HEAD_drains d jobs s :
  Inv d s → consumer s = CLoop → closing (q s) = true →
  tasks (q s) = (λ j, Some j.1) <$> jobs →
  ∃ s', run RunHEAD (consume jobs ++ [LGet]) s = Some s'
        ∧ history s' = history s ++ consumed jobs ++ [EvClose]
        ∧ consumer s' = CReturned
        ∧ Closed (q s') = ChClosed.
Proof.
  intros HI Hpc Hcl Hts.
  assert (Hcd : cond (q s) = false).
  { destruct HI as (_ & _ & _ & Hp & _). destruct (cond (q s)); [|done].
    destruct Hp as [Hp _]; congruence. }
  destruct (run_consume RunHEAD jobs [] s) as (s' & Hrun & Hh & Hq & Hpc');
    try done; [by right | by rewrite app_nil_r |].
  destruct HI as (_ & _ & _ & _ & Ho & Hc & _). rewrite Hpc in Ho, Hc.
  assert (Hstep : step RunHEAD LGet s' = Some (Run_leave CReturned s')).
  { simpl. rewrite Hpc', Hq. simpl. rewrite Hcd.
    unfold loop_get, dequeue, Run_HEAD_get, must_wait. rewrite Hq. simpl.
    rewrite Hcl. simpl. by rewrite <- Hq, set_q_same. }
  exists (Run_leave CReturned s'). split.
  { rewrite run_app, Hrun.
    change (run RunHEAD [LGet] s' = Some (Run_leave CReturned s')).
    by rewrite run_one. }
  rewrite Run_leave_first by (rewrite Hq; done). simpl.
  rewrite Hh, <- app_assoc. done.
Qed.

(** Incoming side: once [closing] is set, the next dequeue section leaves
    at once; what is buffered stays where it is. *)
Lemma Run_Incoming_leaves d s :
  Inv d s → consumer s = CLoop → closing (q s) = true →
  ∃ s', step RunIncoming LGet s = Some s'
        ∧ history s' = history s ++ [EvClose]
        ∧ tasks (q s') = tasks (q s)
        ∧ consumer s' = CReturned
        ∧ Closed (q s') = ChClosed.
Proof.
  intros HI Hpc Hcl.
  assert (Hcd : cond (q s) = false).
  { destruct HI as (_ & _ & _ & Hp & _). destruct (cond (q s)); [|done].
    destruct Hp as [Hp _]; congruence. }
  destruct HI as (_ & _ & _ & _ & Ho & Hc & _). rewrite Hpc in Ho, Hc.
  exists (Run_leave CReturned s). split.
  { simpl. rewrite Hpc, Hcd. unfold loop_get. simpl.
    unfold get, must_wait. rewrite Hcl. simpl. by rewrite set_q_same. }
  rewrite Run_leave_first by done. done.
Qed.

End Consumer.

(** ** The properties of the queue *)

Section Claims.
Context {Fn Err Backoff : Type}.
Implicit Types (x : @queueImpl Fn Backoff) (s : @sys Fn Err Backoff).
Implicit Types (item task : @Task Fn) (l : @label Fn Err).
Implicit Types (jobs : list (Fn * option Err)).

(** C2. Push after shutdown: in every state the queue can get into, a
    [Push] made while [closing] is set returns without an error and leaves
    the queue and the whole system as they were, so every later schedule
    runs as if the call had not been made and the task is not executed;
    a [Push] made while [closing] is unset puts the task at the tail of
    [tasks] and changes no other field but the wait list. *)
Theorem Push_after_shutdown_is_dropped v d name s item :
  reachable v d name s →
  (closing (q s) = true →
     Push (q s) item = q s
     ∧ step v (LPush item) s = Some s
     ∧ ∀ ls, run v (LPush item :: ls) s = run v ls s)
  ∧ (closing (q s) = false →
     Push (q s) item = cond_Signal (set_tasks (tasks (q s) ++ [item]) (q s))
     ∧ tasks (Push (q s) item) = tasks (q s) ++ [item]
     ∧ step v (LPush item) s = Some (set_q (Push (q s) item) s)).
Proof.
  intros HI%Inv_reachable. split; intros Hc.
  - assert (Hcd : cond (q s) = false).
    { destruct HI as (_ & _ & _ & Hp & _). destruct (cond (q s)); [|done].
      destruct Hp as [Hp _]; congruence. }
    assert (HP : Push (q s) item = q s).
    { unfold Push. rewrite Hc. simpl. by apply cond_Signal_awake. }
    assert (Hs : step v (LPush item) s = Some s).
    { simpl. by rewrite HP, set_q_same. }
    repeat split; try done. intros ls.
    change (run v (LPush item :: ls) s)
      with (match step v (LPush item) s with
            | Some s' => run v ls s'
            | None => None
            end).
    by rewrite Hs.
  - repeat split; unfold Push; rewrite Hc; done.
Qed.

(** C9. The head access of [get] is in bounds: [get] never panics, and
    when it gets past its wait loop with [closing] unset, [tasks] has an
    element at index 0, which is the task [get] returns. *)
Theorem get_head_in_bounds x :
  must_wait x = false → closing x = false →
  (∀ p, get x ≠ GetPanic p)
  ∧ tasks x ≠ []
  ∧ ∃ task, tasks x !! 0%nat = Some task
            ∧ get x = GetRet task false (set_tasks (drop 1 (tasks x)) x).
Proof.
  intros Hw Hc. split; [intros p; apply get_no_panic|].
  apply must_wait_false in Hw as [Hw | Hw]; [congruence|].
  split; [done|]. destruct (tasks x) as [|task rest] eqn:Ht; [done|].
  exists task. split; [done|]. simpl. rewrite drop_0.
  by apply get_head.
Qed.

(** C10. Frame of [get]: when it returns the shutdown indicator the queue
    is left exactly as it was ([tasks] and [closing] included); when it
    returns a task, that task was the head of [tasks], the rest of
    [tasks] follows in the same order, and no other field has changed;
    when it waits, only the wait list has changed. *)
Theorem get_frame x :
  match get x with
  | GetRet task true x' => x' = x ∧ task = None ∧ closing x = true
  | GetRet task false x' =>
      tasks x = task :: tasks x' ∧ x' = set_tasks (tasks x') x
      ∧ closing x' = closing x ∧ closing x = false
  | GetWait x' => x' = cond_Wait x ∧ tasks x' = tasks x
  | GetPanic _ => False
  end.
Proof.
  destruct (get x) as [x'|p|task [] x'] eqn:Eg.
  - apply (dequeue_wait RunIncoming) in Eg as (_ & _ & ->). done.
  - by apply get_no_panic in Eg.
  - apply get_shutdown_iff in Eg. tauto.
  - pose proof (dequeue_task RunIncoming _ _ _ Eg) as [Ht Hx'].
    repeat split; try done.
    + rewrite Hx'. done.
    + destruct (closing x) eqn:Hc; [|done].
      unfold get, must_wait in Eg. rewrite Hc in Eg. done.
Qed.

(** C3. FIFO order: a dequeue section on a queue that is not closing
    removes and returns the head of [tasks]; and when one producer has
    pushed the tasks of [jobs] onto a new queue before [Run] starts, the
    loop dequeues and calls them in the order of the pushes, whatever each
    of them returns, and the buffer is empty afterwards. *)
Theorem FIFO_order v d name jobs :
  (∀ x task rest,
     closing x = false → tasks x = task :: rest →
     dequeue v x = GetRet task false (set_tasks rest x))
  ∧ ∃ s : @sys Fn Err Backoff,
      run v ((LPush <$> ((λ j, Some j.1) <$> jobs)) ++ LRun :: consume jobs)
          (boot (NewQueueWithID d name)) = Some s
      ∧ history s = consumed jobs
      ∧ tasks (q s) = []
      ∧ consumer s = CLoop.
Proof.
  split; [intros; by apply dequeue_head|].
  rewrite run_pushes by done. simpl.
  match goal with
  | |- context [run v (consume jobs) ?t] =>
      destruct (run_consume v jobs [] t) as (s' & Hrun & Hh & Hq & Hpc)
  end; simpl; try done.
  - by left.
  - by rewrite app_nil_r.
  - exists s'. rewrite Hq. done.
Qed.

Lemma with_backoff_step v (b : option Backoff) l s :
  step v l (with_backoff b s) = with_backoff b <$> step v l s.
Proof.
  destruct s as [[dl rb ts cd cl cz co nm] nw st w c tm lg h].
  destruct l as [item| | | | |o|t|i]; simpl.
  - unfold with_backoff, Push; simpl. by destruct cl.
  - by destruct c.
  - by destruct st.
  - by destruct w, st.
  - destruct c; try done. destruct cd; try done.
    unfold loop_get, with_backoff; simpl.
    destruct v, cl, ts as [|t0 ts]; simpl; try done;
      unfold Run_leave, Run_deferred, closeOnce_Do, close_closed; simpl;
      destruct co, cz; simpl; done.
  - destruct c as [| |task| |]; try done.
    unfold loop_exec, with_backoff; simpl.
    destruct task, o as [[e|]|]; simpl; try done;
      unfold Run_leave, Run_deferred, closeOnce_Do, close_closed; simpl;
      destruct co, cz; simpl; done.
  - by destruct (0 <=? t)%Z.
  - destruct (tm !! i) as [t0|]; try done.
    unfold due, with_backoff, Push; simpl.
    by destruct (armed_at t0 + after t0 <=? nw)%Z, cl.
Qed.

Lemma scrub_line_twice (l0 : @logline Err) :
  scrub_line (scrub_line l0) = scrub_line l0.
Proof. by destruct l0. Qed.

Lemma scrub_logs_twice (lg : list (@logline Err)) :
  scrub_line <$> (scrub_line <$> lg) = scrub_line <$> lg.
Proof.
  induction lg as [|l0 lg IH]; csimpl; [done|].
  by rewrite scrub_line_twice, IH.
Qed.

Lemma scrub_twice s : scrub (scrub s) = scrub s.
Proof. destruct s; unfold scrub; simpl. by rewrite scrub_logs_twice. Qed.

(** A step does not look at the identifier, except to log it. *)
Lemma scrub_step v l s :
  scrub <$> step v l (scrub s) = scrub <$> step v l s.
Proof.
  destruct s as [[dl rb ts cd cl cz co nm] nw st w c tm lg h].
  destruct l as [item| | | | |o|t|i]; simpl.
  - unfold scrub, Push; simpl. rewrite scrub_logs_twice. by destruct cl.
  - destruct c; try done. unfold scrub; simpl.
    by rewrite !fmap_app, scrub_logs_twice.
  - destruct st; try done. unfold scrub; simpl.
    by rewrite scrub_logs_twice.
  - destruct w, st; try done. unfold scrub; simpl.
    by rewrite scrub_logs_twice.
  - destruct c; try done. destruct cd; try done.
    unfold loop_get, scrub; simpl.
    destruct v, cl, ts as [|t0 ts]; simpl;
      unfold Run_leave, Run_deferred, closeOnce_Do, close_closed; simpl;
      destruct co, cz; simpl;
      rewrite ?fmap_app, ?scrub_logs_twice; done.
  - destruct c as [| |task| |]; try done.
    unfold loop_exec, scrub; simpl.
    destruct task, o as [[e|]|]; simpl;
      unfold Run_leave, Run_deferred, closeOnce_Do, close_closed; simpl;
      destruct co, cz; simpl;
      rewrite ?fmap_app, ?scrub_logs_twice; done.
  - destruct (0 <=? t)%Z; try done. unfold scrub; simpl.
    by rewrite scrub_logs_twice.
  - destruct (tm !! i) as [t0|]; try done.
    unfold due, scrub, Push; simpl.
    destruct (armed_at t0 + after t0 <=? nw)%Z, cl; simpl;
      rewrite ?scrub_logs_twice; done.
Qed.

Lemma scrub_run v (ls : list (@label Fn Err)) s1 s2 :
  scrub s1 = scrub s2 → scrub <$> run v ls s1 = scrub <$> run v ls s2.
Proof.
  revert s1 s2. induction ls as [|l ls IH]; intros s1 s2 Hs; simpl.
  - by rewrite Hs.
  - pose proof (scrub_step v l s1) as H1.
    pose proof (scrub_step v l s2) as H2.
    rewrite Hs, H2 in H1.
    destruct (step v l s1) as [s1'|], (step v l s2) as [s2'|];
      simpl in H1; try done.
    apply IH. congruence.
Qed.

(** C8. The identifier does not interfere: two queues built with the same
    delay and any two identifiers, driven by the same schedule, either
    both refuse it or end in states that agree on everything but the [id]
    field and the identifier printed in the debug lines; and [Push],
    both dequeue sections and [Closed] commute with a change of [id]. *)
Theorem id_noninterference v d (n1 n2 : string) (ls : list (@label Fn Err)) :
  scrub <$> run v ls (boot (NewQueueWithID (Backoff := Backoff) d n1))
  = scrub <$> run v ls (boot (NewQueueWithID d n2))
  ∧ (∀ x item, Push (set_id n2 x) item = set_id n2 (Push x item))
  ∧ (∀ x, dequeue v (set_id n2 x) = got_map (set_id n2) (dequeue v x))
  ∧ (∀ x, Closed (set_id n2 x) = Closed x).
Proof.
  split; [by apply scrub_run|]. repeat split.
  - intros [dl rb ts cd cl cz co nm] item. unfold Push; simpl.
    by destruct cl.
  - intros [dl rb ts cd cl cz co nm].
    destruct v; simpl; unfold Run_HEAD_get, get, must_wait; simpl;
      destruct cl, ts; simpl; done.
Qed.

(** C7. Fixed retry delay: in every state a queue built with delay [d]
    can get into, the [delay] field still is [d], every timer armed for a
    retry was armed with [d], the [retryBackoff] slot is still nil, and
    whatever that slot contained, each step would be the same step. *)
Theorem retry_delay_is_fixed v d name s :
  reachable v d name s →
  delay (q s) = d
  ∧ Forall (λ tm, after tm = d) (timers s)
  ∧ retryBackoff (q s) = None
  ∧ ∀ (b : option Backoff) l,
      step v l (with_backoff b s) = with_backoff b <$> step v l s.
Proof.
  intros (Hd & Hb & Ht & _)%Inv_reachable.
  repeat split; try done. intros b l. apply with_backoff_step.
Qed.

Lemma Run_leave_closing c s :
  closing (q (Run_leave c s)) = closing (q s).
Proof.
  unfold Run_leave, Run_deferred, closeOnce_Do, close_closed.
  destruct (closeOnce (q s)); simpl; [done|].
  destruct (closed (q s)); done.
Qed.

Lemma Push_closing x item : closing (Push x item) = closing x.
Proof. unfold Push. destruct (closing x) eqn:E; simpl; done. Qed.

(** Which steps touch [closing], and how. *)
Lemma step_closing v l s s' :
  step v l s = Some s' →
  match l with
  | LWatch =>
      closing (q s') = true ∧ stop s = true
      ∧ watcher s = WWaiting ∧ watcher s' = WDone
  | _ => closing (q s') = closing (q s)
  end.
Proof.
  destruct l as [item| | | | |o|t|i]; simpl.
  - intros [= <-]. apply Push_closing.
  - destruct (consumer s); try done. by intros [= <-].
  - destruct (stop s); try done. by intros [= <-].
  - destruct (watcher s); try done. destruct (stop s); try done.
    by intros [= <-].
  - destruct (consumer s); try done. destruct (cond (q s)); try done.
    intros [= <-]. unfold loop_get.
    destruct (dequeue v (q s)) as [x'|p|task [] x'] eqn:Eg.
    + by apply dequeue_wait in Eg as (_ & _ & ->).
    + apply Run_leave_closing.
    + apply dequeue_shutdown in Eg as (_ & _ & ->).
      by rewrite Run_leave_closing.
    + apply dequeue_task in Eg as (_ & ->). done.
  - destruct (consumer s) as [| |task| |]; try done. intros [= <-].
    unfold loop_exec. destruct task, o as [[e|]|]; simpl;
      rewrite ?Run_leave_closing; done.
  - destruct (0 <=? t)%Z; try done. by intros [= <-].
  - destruct (timers s !! i) as [tm|]; try done.
    destruct (due tm s); try done. intros [= <-].
    apply (Push_closing (q s)).
Qed.

Lemma Run_leave_watcher c s : watcher (Run_leave c s) = watcher s.
Proof.
  unfold Run_leave, Run_deferred, closeOnce_Do, close_closed.
  destruct (closeOnce (q s)); simpl; [done|].
  destruct (closed (q s)); done.
Qed.

Lemma Run_leave_started c s :
  c ≠ CNotStarted → consumer (Run_leave c s) ≠ CNotStarted.
Proof.
  unfold Run_leave, Run_deferred, closeOnce_Do, close_closed.
  destruct (closeOnce (q s)); simpl; [done|].
  destruct (closed (q s)); done.
Qed.

(** The watcher goroutine is started once and passes [<-stop] once. *)
Lemma watches_bound v (ls : list (@label Fn Err)) s s' :
  (consumer s = CNotStarted → watcher s = WNotStarted) →
  run v ls s = Some s' →
  watches ls ≤ match watcher s with WDone => 0 | _ => 1 end.
Proof.
  revert s. induction ls as [|l ls IH]; intros s HP; simpl; [lia|].
  destruct (step v l s) as [s1|] eqn:Es; [|done]. intros Hrun.
  assert (H1 : (consumer s1 = CNotStarted → watcher s1 = WNotStarted)
               ∧ match l with
                 | LWatch => watcher s = WWaiting ∧ watcher s1 = WDone
                 | _ => match watcher s with
                        | WDone => watcher s1 = WDone
                        | _ => True
                        end
                 end).
  { destruct l as [item| | | | |o|t|i]; simpl in Es.
    - injection Es as <-. simpl. split; [done|]. by destruct (watcher s).
    - destruct (consumer s) eqn:Ec; try done. injection Es as <-.
      simpl. split; [done|]. by rewrite HP.
    - destruct (stop s); try done. injection Es as <-. simpl.
      split; [done|]. by destruct (watcher s).
    - destruct (watcher s) eqn:Ew; try done. destruct (stop s); try done.
      injection Es as <-. simpl. split; [|done].
      intros Hc. apply HP in Hc. congruence.
    - destruct (consumer s) eqn:Ec; try done.
      destruct (cond (q s)); try done. injection Es as <-.
      unfold loop_get.
      destruct (dequeue v (q s)) as [x'|p|task [] x']; simpl;
        rewrite ?Run_leave_watcher, ?Ec; simpl; split;
        try (intros Hc; by apply Run_leave_started in Hc);
        try done; by destruct (watcher s).
    - destruct (consumer s) as [| |task| |] eqn:Ec; try done.
      injection Es as <-. unfold loop_exec.
      destruct task, o as [[e|]|]; simpl;
        rewrite ?Run_leave_watcher; simpl; split;
        try (intros Hc; by apply Run_leave_started in Hc);
        try done; by destruct (watcher s).
    - destruct (0 <=? t)%Z; try done. injection Es as <-. simpl.
      split; [done|]. by destruct (watcher s).
    - destruct (timers s !! i) as [tm|]; try done.
      destruct (due tm s); try done. injection Es as <-. simpl.
      split; [done|]. by destruct (watcher s). }
  destruct H1 as [HP1 Hw]. specialize (IH s1 HP1 Hrun).
  destruct l; simpl;
    destruct (watcher s) eqn:E1, (watcher s1) eqn:E2; simpl in *;
    try lia; try congruence; destruct Hw; congruence.
Qed.

(** C6. The closing flag is monotonic: a new queue has it unset; no step
    takes it from set to unset; the only step that changes it is the one
    of the watcher goroutine of [Run], after the stop signal, which sets
    it; and that step happens at most once in the life of a queue. *)
Theorem closing_is_monotonic v d name :
  closing (NewQueueWithID (Fn := Fn) (Backoff := Backoff) d name) = false
  ∧ (∀ l s s',
       step v l s = Some s' →
       (closing (q s) = true → closing (q s') = true)
       ∧ (closing (q s') ≠ closing (q s) →
          l = LWatch ∧ stop s = true ∧ closing (q s') = true))
  ∧ (∀ (ls : list (@label Fn Err)) (s : @sys Fn Err Backoff),
       run v ls (boot (NewQueueWithID d name)) = Some s →
       watches ls ≤ 1).
Proof.
  split; [done|]. split.
  - intros l s s' Hs. apply step_closing in Hs.
    destruct l; try (rewrite Hs; split; [done|congruence]).
    destruct Hs as (H1 & H2 & _). split; [done|]. done.
  - intros ls s Hrun. by apply watches_bound in Hrun.
Qed.

(** Once [Run] is over, no step dequeues, calls or closes. *)
Lemma step_after_finished v l s s' :
  finished (consumer s) = true → step v l s = Some s' →
  consumer s' = consumer s ∧ history s' = history s.
Proof.
  intros Hf. destruct l as [item| | | | |o|t|i]; simpl.
  - by intros [= <-].
  - by destruct (consumer s).
  - destruct (stop s); try done. by intros [= <-].
  - destruct (watcher s); try done. destruct (stop s); try done.
    by intros [= <-].
  - by destruct (consumer s).
  - by destruct (consumer s).
  - destruct (0 <=? t)%Z; try done. by intros [= <-].
  - destruct (timers s !! i) as [tm|]; try done.
    destruct (due tm s); try done. by intros [= <-].
Qed.

(** C5. Single close notification: in every state the queue can get
    into, [close(q.closed)] has been executed once if [Run] is over and
    not at all before that; the channel of [Closed] is closed exactly
    when [Run] is over; once it is over the closing is the last event,
    after every dequeue and call, and no later step dequeues, calls or
    closes again; the deferred function never panics with a double close;
    and running it again, at any time and any number of times, succeeds
    and leaves one closing in all. *)
Theorem single_close_notification v d name s :
  reachable v d name s →
  closes (history s) = (if finished (consumer s) then 1 else 0)
  ∧ (Closed (q s) = ChClosed ↔ finished (consumer s) = true)
  ∧ (finished (consumer s) = true →
       (∃ h, history s = h ++ [EvClose] ∧ closes h = 0)
       ∧ step v LGet s = None
       ∧ (∀ o, step v (LExec o) s = None)
       ∧ ∀ l s', step v l s = Some s' →
           consumer s' = consumer s ∧ history s' = history s)
  ∧ consumer s ≠ CPanicked CloseOfClosed
  ∧ ∃ s1, Run_deferred s = Some s1
          ∧ Run_deferred s1 = Some s1
          ∧ closes (history s1) = 1.
Proof.
  intros (_ & _ & _ & _ & Ho & Hc & Hh & _ & _ & _ & Hcc)%Inv_reachable.
  unfold Closed.
  destruct (finished (consumer s)) eqn:Hf.
  - destruct Hh as (h & Hh & Hh0).
    assert (Hn : closes (history s) = 1).
    { rewrite Hh, closes_app, Hh0. done. }
    repeat split; try done.
    + by exists h.
    + simpl. by destruct (consumer s).
    + intros o. simpl. by destruct (consumer s).
    + by eapply step_after_finished.
    + by eapply step_after_finished.
    + exists s. by rewrite Run_deferred_again.
  - repeat split; try done; try congruence.
    rewrite Run_deferred_first by done. eexists. split; [done|].
    split.
    + by apply Run_deferred_again.
    + simpl. rewrite closes_app, Hh. done.
Qed.

(** C4. Retry on failure: when the loop holds a task and the call
    returns an error, a timer is armed at that moment with the queue's
    delay and this very task, one line is logged, the queue is not
    touched, and the loop is back at its dequeue section, which hands out
    the next buffered task while the timer is still pending; when the call
    returns nil, no timer is armed and nothing else changes either.  A
    timer cannot run before its delay has elapsed, and when it runs it
    performs [Push] of its task. *)
Theorem retry_on_failure v s (f : Fn) :
  consumer s = CExec (Some f) →
  (∀ err, ∃ s',
      step v (LExec (Returned (Some err))) s = Some s'
      ∧ timers s' = timers s ++ [mkTimer (now s) (delay (q s)) (Some f)]
      ∧ q s' = q s
      ∧ now s' = now s
      ∧ consumer s' = CLoop
      ∧ (∀ task rest,
           cond (q s) = false → closing (q s) = false →
           tasks (q s) = task :: rest →
           ∃ s'', step v LGet s' = Some s''
                  ∧ consumer s'' = CExec task
                  ∧ timers s'' = timers s'))
  ∧ (∃ s', step v (LExec (Returned None)) s = Some s'
           ∧ timers s' = timers s
           ∧ q s' = q s
           ∧ logs s' = logs s
           ∧ consumer s' = CLoop)
  ∧ (∀ i tm (s0 : @sys Fn Err Backoff),
       timers s0 !! i = Some tm →
       step v (LFire i) s0 =
         if (armed_at tm + after tm <=? now s0)%Z
         then Some (set_q (Push (q s0) (payload tm))
                          (set_timers (delete i (timers s0)) s0))
         else None).
Proof.
  intros Hpc. repeat split.
  - intros err. simpl. rewrite Hpc. eexists. split; [done|]. simpl.
    repeat split; try done.
    intros task rest Hcd Hcl Hts. rewrite Hcd. unfold loop_get. simpl.
    rewrite (dequeue_head v _ _ _ Hcl Hts). eexists. split; done.
  - simpl. rewrite Hpc. eexists. split; [done|]. done.
  - intros i tm s0 Ht. simpl. rewrite Ht. done.
Qed.

End Claims.

(** ** The queue at work on sample tasks *)

(** C1. Drain before stop, checked on the queue that holds [t1] and [t2]
    when [closing] is set: [get] returns the shutdown indicator although
    two tasks are buffered, so on the side of the merge that calls
    [processNextItem] the loop leaves and [Closed] fires with both tasks
    still in the buffer and none of them called; on the HEAD side the same
    schedule first dequeues and calls both, and fires [Closed] after that. *)
Theorem get_shutdown_leaves_tasks_buffered :
  get Sample.closing_with_two = GetRet None true Sample.closing_with_two
  ∧ tasks Sample.closing_with_two = [Sample.t1; Sample.t2]
  ∧ run RunIncoming Sample.stop_with_two (boot Sample.fresh)
    = Some Sample.stopped_with_two
  ∧ (∃ s : Sample.S,
       step RunIncoming LGet Sample.stopped_with_two = Some s
       ∧ consumer s = CReturned
       ∧ Closed (q s) = ChClosed
       ∧ history s = [EvClose]
       ∧ tasks (q s) = [Sample.t1; Sample.t2])
  ∧ Run_HEAD_get Sample.closing_with_two
    = GetRet Sample.t1 false (set_tasks [Sample.t2] Sample.closing_with_two)
  ∧ (∃ s : Sample.S,
       run RunHEAD
           [LGet; LExec (Returned None); LGet; LExec (Returned None); LGet]
           Sample.stopped_with_two = Some s
       ∧ consumer s = CReturned
       ∧ Closed (q s) = ChClosed
       ∧ history s = [EvDequeue Sample.t1; EvCall Sample.t1;
                      EvDequeue Sample.t2; EvCall Sample.t2; EvClose]
       ∧ tasks (q s) = []).
Proof.
  repeat split; try reflexivity.
  - eexists. repeat split; reflexivity.
  - eexists. repeat split; reflexivity.
Qed.

(** Scenario A of the testable properties, on either side of the merge:
    four calls, in the order [t1], [t2], [t3], [t2]; the retry cannot be
    pushed before the delay has passed. *)
Example scenario_A v :
  ∃ s1 s2 : Sample.S,
    run v Sample.until_t2_fails (boot Sample.fresh) = Some s1
    ∧ timers s1 = [mkTimer 0%Z 5%Z Sample.t2]
    ∧ step v (LFire 0%nat) s1 = None
    ∧ run v [LTick 4; LFire 0%nat] s1 = None
    ∧ run v Sample.t3_then_retry s1 = Some s2
    ∧ history s2 = [EvDequeue Sample.t1; EvCall Sample.t1;
                    EvDequeue Sample.t2; EvCall Sample.t2;
                    EvDequeue Sample.t3; EvCall Sample.t3;
                    EvDequeue Sample.t2; EvCall Sample.t2]
    ∧ tasks (q s2) = [] ∧ timers s2 = [].
Proof.
  destruct v; do 2 eexists;
    (split; [vm_compute; reflexivity|]);
    (split; [reflexivity|]); (split; [reflexivity|]);
    (split; [reflexivity|]); (split; [vm_compute; reflexivity|]);
    repeat split.
Qed.

(** Scenario C: the task pushed after the stop is never called, and the
    queue still reaches [Closed]. *)
Example scenario_C v :
  ∃ s : Sample.S,
    run v Sample.push_after_stop (boot Sample.fresh) = Some s
    ∧ history s = [EvDequeue Sample.t1; EvCall Sample.t1; EvClose]
    ∧ tasks (q s) = []
    ∧ Closed (q s) = ChClosed.
Proof.
  destruct v; eexists; (split; [vm_compute; reflexivity|]); repeat split.
Qed.

Lemma Push_after_shutdown_is_dropped_witness :
  reachable RunIncoming 5%Z "demo" Sample.stopped_with_two
  ∧ closing (q Sample.stopped_with_two) = true
  ∧ Push (q Sample.stopped_with_two) Sample.t3 = q Sample.stopped_with_two
  ∧ step RunIncoming (LPush Sample.t3) Sample.stopped_with_two
    = Some Sample.stopped_with_two.
Proof.
  assert (H : reachable RunIncoming 5%Z "demo" Sample.stopped_with_two)
    by (exists Sample.stop_with_two; reflexivity).
  split; [exact H|]. split; [reflexivity|].
  destruct (Push_after_shutdown_is_dropped RunIncoming 5%Z "demo"
              Sample.stopped_with_two Sample.t3 H) as [Hclosing _].
  destruct (Hclosing eq_refl) as (HP & Hs & _).
  split; [exact HP | exact Hs].
Defined.

Lemma get_head_in_bounds_witness :
  must_wait Sample.open_with_two = false
  ∧ closing Sample.open_with_two = false
  ∧ tasks Sample.open_with_two ≠ []
  ∧ ∃ task, tasks Sample.open_with_two !! 0%nat = Some task
            ∧ get Sample.open_with_two
              = GetRet task false
                  (set_tasks (drop 1 (tasks Sample.open_with_two))
                             Sample.open_with_two).
Proof.
  split; [reflexivity|]. split; [reflexivity|].
  exact (proj2 (get_head_in_bounds Sample.open_with_two eq_refl eq_refl)).
Defined.

Lemma retry_on_failure_witness :
  consumer Sample.holding_t1 = CExec (Some "t1")
  ∧ ∃ s' : Sample.S,
      step RunIncoming (LExec (Returned (Some "boom"))) Sample.holding_t1
      = Some s'
      ∧ timers s' = [mkTimer 0%Z 5%Z Sample.t1]
      ∧ consumer s' = CLoop.
Proof.
  split; [reflexivity|].
  destruct (retry_on_failure RunIncoming Sample.holding_t1 "t1" eq_refl)
    as (Hfail & _).
  destruct (Hfail "boom") as (s' & Hs & Ht & _ & _ & Hc & _).
  exists s'. split; [exact Hs|]. split; [exact Ht | exact Hc].
Defined.

Lemma single_close_notification_witness :
  reachable RunIncoming 5%Z "demo" Sample.stopped_with_two
  ∧ closes (history Sample.stopped_with_two) = 0
  ∧ ∃ s1 : Sample.S,
      Run_deferred Sample.stopped_with_two = Some s1
      ∧ Run_deferred s1 = Some s1
      ∧ closes (history s1) = 1.
Proof.
  assert (H : reachable RunIncoming 5%Z "demo" Sample.stopped_with_two)
    by (exists Sample.stop_with_two; reflexivity).
  split; [exact H|].
  destruct (single_close_notification RunIncoming 5%Z "demo"
              Sample.stopped_with_two H) as (Hn & _ & _ & _ & Hd).
  split; [exact Hn | exact Hd].
Defined.

Lemma retry_delay_is_fixed_witness :
  reachable RunHEAD 5%Z "demo" Sample.stopped_with_two
  ∧ delay (q Sample.stopped_with_two) = 5%Z
  ∧ retryBackoff (q Sample.stopped_with_two) = None
  ∧ step RunHEAD LGet (with_backoff (Some tt) Sample.stopped_with_two)
    = with_backoff (Some tt) <$> step RunHEAD LGet Sample.stopped_with_two.
Proof.
  assert (H : reachable RunHEAD 5%Z "demo" Sample.stopped_with_two)
    by (exists Sample.stop_with_two; reflexivity).
  split; [exact H|].
  destruct (retry_delay_is_fixed RunHEAD 5%Z "demo"
              Sample.stopped_with_two H) as (Hd & _ & Hb & Hs).
  split; [exact Hd|]. split; [exact Hb | exact (Hs (Some tt) LGet)].
Defined.

(** ** More on the monitor, the buffer and the ways [Run] ends *)

Section Extras.
Context {Fn Err Backoff : Type}.
Implicit Types (x : @queueImpl Fn Backoff) (s : @sys Fn Err Backoff).
Implicit Types (item task : @Task Fn) (l : @label Fn Err).
Implicit Types (ls : list (@label Fn Err)) (h : list (@event Fn)).

(** A property kept by every step is kept by every schedule. *)
Lemma invariant_run (P : @sys Fn Err Backoff → Prop) v d :
  (∀ l s s', Inv d s → P s → step v l s = Some s' → P s') →
  ∀ ls s s', Inv d s → P s → run v ls s = Some s' → P s'.
Proof.
  intros Hstep ls. induction ls as [|l ls IH]; intros s s' HI HP; simpl.
  - by intros [= <-].
  - destruct (step v l s) as [s1|] eqn:E; [|done].
    apply IH; eauto using Inv_step.
Qed.

(** What leaving [Run] does not touch. *)
Lemma Run_leave_frame c s :
  tasks (q (Run_leave c s)) = tasks (q s)
  ∧ cond (q (Run_leave c s)) = cond (q s)
  ∧ closing (q (Run_leave c s)) = closing (q s)
  ∧ delay (q (Run_leave c s)) = delay (q s)
  ∧ id (q (Run_leave c s)) = id (q s)
  ∧ watcher (Run_leave c s) = watcher s
  ∧ timers (Run_leave c s) = timers s
  ∧ now (Run_leave c s) = now s
  ∧ stop (Run_leave c s) = stop s.
Proof.
  unfold Run_leave, Run_deferred, closeOnce_Do, close_closed.
  destruct (closeOnce (q s)); simpl; [done|].
  destruct (closed (q s)); done.
Qed.

Lemma Run_leave_finished c s :
  finished c = true → finished (consumer (Run_leave c s)) = true.
Proof.
  unfold Run_leave, Run_deferred, closeOnce_Do, close_closed.
  destruct (closeOnce (q s)); simpl; [done|].
  destruct (closed (q s)); done.
Qed.

Lemma Monitor_ok_leave c s : Monitor_ok s → Monitor_ok (Run_leave c s).
Proof.
  unfold Monitor_ok.
  destruct (Run_leave_frame c s) as (-> & -> & -> & _ & _ & -> & _). done.
Qed.

Lemma Monitor_ok_boot d name :
  Monitor_ok (boot (Err := Err)
                (NewQueueWithID (Fn := Fn) (Backoff := Backoff) d name)).
Proof. by split. Qed.

Lemma Monitor_ok_step v d l s s' :
  Inv d s → Monitor_ok s → step v l s = Some s' → Monitor_ok s'.
Proof.
  intros HI [Hp Hw] Hs.
  assert (Hpc : cond (q s) = true → closing (q s) = false ∧ consumer s = CLoop)
    by (destruct HI as (_ & _ & _ & H & _); exact H).
  assert (Hns : consumer s = CNotStarted → watcher s = WNotStarted)
    by (destruct HI as (_ & _ & _ & _ & _ & _ & _ & H & _); apply H).
  destruct l as [item| | | | |o|t|i]; simpl in Hs.
  - injection Hs as <-. split; simpl; [done|].
    intros H. apply Hw in H. destruct (closing (q s)) eqn:E; simpl; done.
  - destruct (consumer s) eqn:Ec; try done. injection Hs as <-.
    split; simpl; [done|]. done.
  - destruct (stop s); try done. by injection Hs as <-.
  - destruct (watcher s); try done. destruct (stop s); try done.
    injection Hs as <-. by split.
  - destruct (consumer s) eqn:Ec; try done.
    destruct (cond (q s)) eqn:Ecd; try done. injection Hs as <-.
    unfold loop_get.
    destruct (dequeue v (q s)) as [x'|p|task [] x'] eqn:Eg.
    + apply dequeue_wait in Eg as (Hcl & Hts & ->). by split.
    + by apply dequeue_no_panic in Eg.
    + apply dequeue_shutdown in Eg as (Hcl & -> & ->).
      rewrite set_q_same. apply Monitor_ok_leave. split; [congruence|done].
    + apply dequeue_task in Eg as (Hts & ->). split; simpl; [congruence|done].
  - destruct (consumer s) as [| |task| |] eqn:Ec; try done.
    injection Hs as <-.
    assert (Hcd : cond (q s) = false).
    { destruct (cond (q s)); [|done]. destruct Hpc as [_ ?]; congruence. }
    unfold loop_exec. destruct task as [f|], o as [[e|]|]; simpl;
      try apply Monitor_ok_leave; split; simpl; congruence || done.
  - destruct (0 <=? t)%Z; try done. by injection Hs as <-.
  - destruct (timers s !! i) as [tm|]; try done.
    destruct (due tm s); try done. injection Hs as <-.
    split; simpl; [done|].
    intros H. apply Hw in H. destruct (closing (q s)) eqn:E; simpl; done.
Qed.

Lemma Monitor_ok_reachable v d name s :
  reachable v d name s → Monitor_ok s.
Proof.
  intros [ls Hls].
  eapply (invariant_run Monitor_ok v d); [| |apply Monitor_ok_boot|exact Hls].
  - intros. by eapply Monitor_ok_step.
  - apply Inv_boot.
Qed.

(** What a reachable state with the consumer parked looks like. *)
Lemma parked_state v d name s :
  reachable v d name s → cond (q s) = true →
  closing (q s) = false ∧ tasks (q s) = [] ∧ consumer s = CLoop
  ∧ watcher s = WWaiting ∧ closeOnce (q s) = false ∧ closed (q s) = ChOpen.
Proof.
  intros Hr Hcd. pose proof (Monitor_ok_reachable _ _ _ _ Hr) as [Hp Hw].
  apply Inv_reachable in Hr
    as (_ & _ & _ & Hpc & Ho & Hc & _ & Hns & _).
  destruct (Hpc Hcd) as [Hcl Hcons]. rewrite Hcons in *.
  repeat split; try done; auto.
  destruct (watcher s) eqn:Ew; try done.
  - destruct Hns as [Hns _]. by specialize (Hns eq_refl).
  - specialize (Hw eq_refl). congruence.
Qed.

(** No lost wakeup: while [Run] is in its loop, the dequeue section is
    blocked exactly when the consumer is parked, the consumer is parked
    only while [closing] is unset and nothing is buffered, and as soon as
    there is a task or [closing] is set the section runs and either takes a
    task or ends [Run]. *)
Theorem no_lost_wakeup v d name s :
  reachable v d name s → consumer s = CLoop →
  (step v LGet s = None ↔ cond (q s) = true)
  ∧ (cond (q s) = true → closing (q s) = false ∧ tasks (q s) = [])
  ∧ (closing (q s) = true ∨ tasks (q s) ≠ [] →
     ∃ s', step v LGet s = Some s' ∧ consumer s' ≠ CLoop
           ∧ cond (q s') = false).
Proof.
  intros Hr Hpc. split; [|split].
  - simpl. rewrite Hpc. by destruct (cond (q s)).
  - intros Hcd. by destruct (parked_state _ _ _ _ Hr Hcd) as (? & ? & _).
  - intros Hwork.
    assert (Hcd : cond (q s) = false).
    { destruct (cond (q s)) eqn:E; [|done].
      destruct (parked_state _ _ _ _ Hr E) as (? & ? & _).
      destruct Hwork; congruence. }
    simpl. rewrite Hpc, Hcd. eexists. split; [done|]. unfold loop_get.
    destruct (dequeue v (q s)) as [x'|p|task [] x'] eqn:Eg.
    + apply dequeue_wait in Eg as (? & ? & _). destruct Hwork; congruence.
    + by apply dequeue_no_panic in Eg.
    + apply dequeue_shutdown in Eg as (_ & _ & ->).
      destruct (Run_leave_frame CReturned (set_q (q s) s)) as (_ & -> & _).
      pose proof (Run_leave_finished CReturned (set_q (q s) s) eq_refl) as Hf.
      split; [|done]. intros E. by rewrite E in Hf.
    + apply dequeue_task in Eg as (_ & ->). simpl. done.
Qed.

(** A [Push] wakes the parked consumer, and the dequeue section it then
    runs hands out the pushed task. *)
Theorem Push_wakes_parked_consumer v d name s item :
  reachable v d name s → cond (q s) = true →
  ∃ s', run v [LPush item; LGet] s = Some s'
        ∧ consumer s' = CExec item
        ∧ tasks (q s') = []
        ∧ history s' = history s ++ [EvDequeue item].
Proof.
  intros Hr Hcd.
  destruct (parked_state _ _ _ _ Hr Hcd) as (Hcl & Hts & Hpc & _).
  simpl. rewrite Hpc. unfold loop_get. simpl.
  rewrite (dequeue_head v _ item []).
  - eexists. split; [done|]. done.
  - by rewrite Push_closing.
  - unfold Push. rewrite Hcl, Hts. done.
Qed.

(** The stop signal wakes the parked consumer: once the watcher goroutine
    has run, the next dequeue section ends [Run] and [Closed] fires. *)
Theorem stop_wakes_parked_consumer v d name s :
  reachable v d name s → cond (q s) = true → stop s = true →
  ∃ s', run v [LWatch; LGet] s = Some s'
        ∧ consumer s' = CReturned
        ∧ Closed (q s') = ChClosed
        ∧ history s' = history s ++ [EvClose].
Proof.
  intros Hr Hcd Hst.
  destruct (parked_state _ _ _ _ Hr Hcd) as (Hcl & Hts & Hpc & Hw & Ho & Hc).
  simpl. rewrite Hw, Hst. simpl. rewrite Hpc. unfold loop_get. simpl.
  assert (Eg : dequeue v (Run_watch (q s)) = GetRet None true (Run_watch (q s))).
  { destruct v; simpl;
      unfold Run_HEAD_get, get, must_wait, Run_watch, cond_Signal; simpl;
      rewrite ?Hts; done. }
  rewrite Eg. rewrite Run_leave_first by done.
  eexists. split; [done|]. done.
Qed.

Lemma dequeued_app h1 h2 : dequeued (h1 ++ h2) = dequeued h1 ++ dequeued h2.
Proof. induction h1 as [|[] h1 IH]; simpl; by rewrite ?IH. Qed.

Lemma called_app h1 h2 : called (h1 ++ h2) = called h1 ++ called h2.
Proof. induction h1 as [|[] h1 IH]; simpl; by rewrite ?IH. Qed.

(** Leaving [Run] adds the closing to the history, or nothing. *)
Lemma Run_leave_history c s :
  history (Run_leave c s) = history s
  ∨ history (Run_leave c s) = history s ++ [EvClose].
Proof.
  unfold Run_leave, Run_deferred, closeOnce_Do, close_closed.
  destruct (closeOnce (q s)); simpl; [by left|].
  destruct (closed (q s)); simpl; [by right | by left].
Qed.

Lemma Run_leave_dequeued c s :
  dequeued (history (Run_leave c s)) = dequeued (history s).
Proof.
  destruct (Run_leave_history c s) as [-> | ->]; [done|].
  rewrite dequeued_app. simpl. by rewrite app_nil_r.
Qed.

Lemma Run_leave_called c s :
  called (history (Run_leave c s)) = called (history s).
Proof.
  destruct (Run_leave_history c s) as [-> | ->]; [done|].
  rewrite called_app. simpl. by rewrite app_nil_r.
Qed.

Lemma Push_tasks x item :
  tasks (Push x item) = tasks x ++ (if closing x then [] else [item]).
Proof.
  unfold Push. destruct (closing x); simpl; by rewrite ?app_nil_r.
Qed.

(** What one step does to the tasks taken so far and the tasks buffered. *)
Lemma step_buffer v l s s' :
  step v l s = Some s' →
  dequeued (history s') ++ tasks (q s')
  = dequeued (history s) ++ tasks (q s) ++ admits l s.
Proof.
  destruct l as [item| | | | |o|t|i]; simpl.
  - intros [= <-]. simpl.
    destruct (closing (q s)); simpl; by rewrite ?app_nil_r.
  - destruct (consumer s); try done. intros [= <-]. simpl.
    by rewrite app_nil_r.
  - destruct (stop s); try done. intros [= <-]. simpl. by rewrite app_nil_r.
  - destruct (watcher s); try done. destruct (stop s); try done.
    intros [= <-]. simpl. by rewrite app_nil_r.
  - destruct (consumer s); try done. destruct (cond (q s)); try done.
    intros [= <-]. rewrite app_nil_r. unfold loop_get.
    destruct (dequeue v (q s)) as [x'|p|task [] x'] eqn:Eg.
    + by apply dequeue_wait in Eg as (_ & _ & ->).
    + by apply dequeue_no_panic in Eg.
    + apply dequeue_shutdown in Eg as (_ & _ & ->).
      rewrite Run_leave_dequeued.
      by destruct (Run_leave_frame CReturned (set_q (q s) s)) as (-> & _).
    + apply dequeue_task in Eg as (Hts & ->). simpl.
      rewrite dequeued_app, Hts, <- app_assoc. done.
  - destruct (consumer s) as [| |task| |]; try done. intros [= <-].
    rewrite app_nil_r. unfold loop_exec.
    destruct task as [f|], o as [[e|]|]; simpl;
      rewrite ?Run_leave_dequeued; simpl;
      rewrite ?dequeued_app; simpl; rewrite ?app_nil_r;
      try match goal with
        | |- context [Run_leave ?c ?t] =>
            destruct (Run_leave_frame c t) as (-> & _)
        end; done.
  - destruct (0 <=? t)%Z; try done. intros [= <-]. simpl.
    by rewrite app_nil_r.
  - destruct (timers s !! i) as [tm|]; [|done].
    destruct (due tm s); try done. intros [= <-]. simpl.
    destruct (closing (q s)); simpl; by rewrite ?app_nil_r.
Qed.

(** What a schedule does to the tasks taken so far and the tasks buffered. *)
Lemma run_buffer v ls s s' :
  run v ls s = Some s' →
  dequeued (history s') ++ tasks (q s')
  = dequeued (history s) ++ tasks (q s) ++ admitted v ls s.
Proof.
  revert s. induction ls as [|l ls IH]; intros s; simpl.
  - intros [= <-]. by rewrite app_nil_r.
  - destruct (step v l s) as [s1|] eqn:Es; [|done]. intros Hrun.
    rewrite (IH _ Hrun), !app_assoc. f_equal.
    rewrite <- app_assoc. by apply (step_buffer v).
Qed.

(** Nothing is lost, nothing is doubled, nothing overtakes: along every
    schedule, from any state, the tasks taken by the loop followed by the
    tasks still buffered are the tasks taken and buffered at the start
    followed by the tasks the schedule's pushes appended, in the order of
    those pushes. *)
Theorem buffer_is_fifo v ls s s' :
  run v ls s = Some s' →
  dequeued (history s') ++ tasks (q s')
  = dequeued (history s) ++ tasks (q s) ++ admitted v ls s.
Proof. apply run_buffer. Qed.

Lemma calls_follow_step v l s s' :
  called (history s) ++ held (consumer s) = dequeued (history s) →
  step v l s = Some s' →
  called (history s') ++ held (consumer s') = dequeued (history s').
Proof.
  intros HP. destruct l as [item| | | | |o|t|i]; simpl.
  - by intros [= <-].
  - destruct (consumer s) eqn:Ec; try done. by intros [= <-].
  - destruct (stop s); try done. by intros [= <-].
  - destruct (watcher s); try done. destruct (stop s); try done.
    by intros [= <-].
  - destruct (consumer s) eqn:Ec; try done.
    destruct (cond (q s)); try done. intros [= <-]. unfold loop_get.
    simpl in HP. rewrite app_nil_r in HP.
    destruct (dequeue v (q s)) as [x'|p|task [] x'] eqn:Eg.
    + simpl. by rewrite Ec, app_nil_r.
    + by apply dequeue_no_panic in Eg.
    + rewrite Run_leave_called, Run_leave_dequeued. simpl.
      pose proof (Run_leave_finished CReturned (set_q x' s) eq_refl) as Hf.
      destruct (consumer (Run_leave CReturned (set_q x' s))); try done;
        simpl; by rewrite app_nil_r.
    + simpl. by rewrite called_app, dequeued_app, HP, app_nil_r.
  - destruct (consumer s) as [| |task| |] eqn:Ec; try done. intros [= <-].
    simpl in HP. unfold loop_exec.
    destruct task as [f|], o as [[e|]|]; simpl;
      rewrite ?Run_leave_called, ?Run_leave_dequeued; simpl;
      rewrite ?called_app, ?dequeued_app; simpl; rewrite ?app_nil_r;
      try match goal with
        | |- context [consumer (Run_leave ?c ?t)] =>
            pose proof (Run_leave_finished c t eq_refl) as Hf;
            destruct (consumer (Run_leave c t)); try done; simpl
        end; rewrite ?app_nil_r; done.
  - destruct (0 <=? t)%Z; try done. by intros [= <-].
  - destruct (timers s !! i) as [tm|]; [|done].
    destruct (due tm s); try done. by intros [= <-].
Qed.

(** One task at a time, each once, in order: in every state the queue can
    get into, the tasks called so far, followed by the one the loop holds
    and has not called yet, are exactly the tasks dequeued so far; with the
    tasks still buffered after them they are the tasks the schedule's
    pushes appended, in the order of those pushes. *)
Theorem calls_follow_dequeues v d name ls s :
  run v ls (boot (NewQueueWithID d name)) = Some s →
  called (history s) ++ held (consumer s) = dequeued (history s)
  ∧ length (held (consumer s)) ≤ 1
  ∧ called (history s) ++ held (consumer s) ++ tasks (q s)
    = admitted v ls
        (boot (Err := Err) (NewQueueWithID (Backoff := Backoff) d name)).
Proof.
  intros Hrun.
  assert (H1 : called (history s) ++ held (consumer s) = dequeued (history s)).
  { eapply (invariant_run
              (λ s0, called (history s0) ++ held (consumer s0)
                     = dequeued (history s0)) v d); [| | |exact Hrun].
    - intros. by eapply calls_follow_step.
    - apply Inv_boot.
    - done. }
  split; [done|]. split.
  - destruct (consumer s); simpl; lia.
  - rewrite app_assoc, H1. by rewrite (run_buffer _ _ _ _ Hrun).
Qed.

(** Time and the history only grow. *)
Lemma step_grows v l s s' :
  step v l s = Some s' →
  (now s ≤ now s')%Z ∧ ∃ h', history s' = history s ++ h'.
Proof.
  destruct l as [item| | | | |o|t|i]; simpl.
  - intros [= <-]. split; [done|]. exists []. simpl. by rewrite app_nil_r.
  - destruct (consumer s); try done. intros [= <-]. split; [done|].
    exists []. simpl. by rewrite app_nil_r.
  - destruct (stop s); try done. intros [= <-]. split; [done|].
    exists []. simpl. by rewrite app_nil_r.
  - destruct (watcher s); try done. destruct (stop s); try done.
    intros [= <-]. split; [done|]. exists []. simpl. by rewrite app_nil_r.
  - destruct (consumer s); try done. destruct (cond (q s)); try done.
    intros [= <-]. unfold loop_get.
    destruct (dequeue v (q s)) as [x'|p|task [] x'].
    + split; [done|]. exists []. simpl. by rewrite app_nil_r.
    + destruct (Run_leave_frame (CPanicked p) s)
        as (_ & _ & _ & _ & _ & _ & _ & -> & _). split; [done|].
      destruct (Run_leave_history (CPanicked p) s) as [-> | ->];
        [exists []; by rewrite app_nil_r | by eexists].
    + destruct (Run_leave_frame CReturned (set_q x' s))
        as (_ & _ & _ & _ & _ & _ & _ & -> & _). split; [done|].
      destruct (Run_leave_history CReturned (set_q x' s)) as [-> | ->];
        [exists []; simpl; by rewrite app_nil_r | by eexists].
    + split; [done|]. by eexists.
  - destruct (consumer s) as [| |task| |]; try done.
    intros [= <-]. unfold loop_exec.
    destruct task as [f|], o as [[e|]|]; simpl;
      try (split; [done|]; by eexists).
    all: match goal with
         | |- context [Run_leave ?c ?t] =>
             destruct (Run_leave_frame c t)
               as (_ & _ & _ & _ & _ & _ & _ & -> & _);
             destruct (Run_leave_history c t) as [-> | ->]
         end; simpl; rewrite <- ?app_assoc; split; try done; by eexists.
  - destruct (0 <=? t)%Z eqn:E; try done. intros [= <-]. simpl.
    split; [lia|]. exists []. by rewrite app_nil_r.
  - destruct (timers s !! i) as [tm|]; [|done].
    destruct (due tm s); try done. intros [= <-]. split; [done|].
    exists []. simpl. by rewrite app_nil_r.
Qed.

(** Once [Run] is over, no schedule dequeues, calls or closes. *)
Lemma run_after_finished v ls s s' :
  finished (consumer s) = true → run v ls s = Some s' →
  consumer s' = consumer s ∧ history s' = history s.
Proof.
  revert s. induction ls as [|l ls IH]; intros s Hf; simpl.
  - by intros [= <-].
  - destruct (step v l s) as [s1|] eqn:Es; [|done]. intros Hrun.
    destruct (step_after_finished v l s s1 Hf Es) as [Hc Hh].
    destruct (IH s1) as [Hc' Hh']; [by rewrite Hc | done|].
    split; congruence.
Qed.

Lemma run_closing v ls s s' :
  closing (q s) = true → run v ls s = Some s' → closing (q s') = true.
Proof.
  revert s. induction ls as [|l ls IH]; intros s Hc; simpl.
  - by intros [= <-].
  - destruct (step v l s) as [s1|] eqn:Es; [|done].
    apply IH. apply step_closing in Es. destruct l; try congruence. tauto.
Qed.

Lemma admitted_closing v ls s :
  closing (q s) = true → admitted v ls s = [].
Proof.
  revert s. induction ls as [|l ls IH]; intros s Hc; simpl; [done|].
  destruct (step v l s) as [s1|] eqn:Es; [|done].
  rewrite IH by (eapply (run_closing v [l]); [exact Hc | by rewrite run_one]).
  rewrite app_nil_r. destruct l; simpl; rewrite ?Hc; try done.
  by destruct (timers s !! i).
Qed.

(** What a schedule can do to the buffer once [closing] is set. *)
Lemma run_after_shutdown v ls s s' :
  closing (q s) = true → run v ls s = Some s' →
  closing (q s') = true
  ∧ dequeued (history s') ++ tasks (q s') = dequeued (history s) ++ tasks (q s)
  ∧ length (tasks (q s')) ≤ length (tasks (q s))
  ∧ (finished (consumer s) = true →
     tasks (q s') = tasks (q s) ∧ history s' = history s).
Proof.
  intros Hc Hrun.
  pose proof (run_buffer _ _ _ _ Hrun) as Hb.
  rewrite admitted_closing, app_nil_r in Hb by done.
  split; [by eapply run_closing|]. split; [done|].
  assert (Hlen : length (tasks (q s')) ≤ length (tasks (q s))).
  { apply (f_equal length) in Hb. rewrite !length_app in Hb.
    assert (length (dequeued (history s)) ≤ length (dequeued (history s')));
      [|lia].
    clear Hb Hc. revert s Hrun.
    induction ls as [|l ls IH]; intros s; simpl.
    - by intros [= <-].
    - destruct (step v l s) as [s1|] eqn:Es; [|done]. intros Hrun.
      etrans; [|by apply (IH s1)].
      destruct (step_grows _ _ _ _ Es) as [_ [h' ->]].
      rewrite dequeued_app, length_app. lia. }
  split; [done|]. intros Hf.
  destruct (run_after_finished v ls s s' Hf Hrun) as [_ Hh].
  split; [|done]. rewrite Hh in Hb. by apply app_inv_head in Hb.
Qed.

(** The buffer after shutdown: once [closing] is set no schedule appends a
    task, whoever pushes; the tasks taken from then on followed by the tasks
    left are the tasks that were buffered; and when [Run] is over as well,
    the buffer and the history stay as they are for good. *)
Theorem buffer_after_shutdown v ls s s' :
  closing (q s) = true → run v ls s = Some s' →
  closing (q s') = true
  ∧ dequeued (history s') ++ tasks (q s') = dequeued (history s) ++ tasks (q s)
  ∧ length (tasks (q s')) ≤ length (tasks (q s))
  ∧ (finished (consumer s) = true →
     tasks (q s') = tasks (q s) ∧ history s' = history s).
Proof. apply run_after_shutdown. Qed.

(** The HEAD loop drains: from a state the queue can get into, with
    [closing] set and the loop at its dequeue section, the loop takes and
    calls every buffered task, in the order of the buffer and whatever each
    returns, and only then returns and fires [Closed]. *)
Theorem HEAD_loop_drains_then_closes d name s (jobs : list (Fn * option Err)) :
  reachable RunHEAD d name s →
  consumer s = CLoop → closing (q s) = true →
  tasks (q s) = (λ j, Some j.1) <$> jobs →
  ∃ s', run RunHEAD (consume jobs ++ [LGet]) s = Some s'
        ∧ history s' = history s ++ consumed jobs ++ [EvClose]
        ∧ called (history s')
          = called (history s) ++ ((λ j, Some j.1) <$> jobs)
        ∧ tasks (q s') = []
        ∧ consumer s' = CReturned
        ∧ Closed (q s') = ChClosed.
Proof.
  intros HI%Inv_reachable Hpc Hcl Hts.
  destruct (Run_HEAD_drains d jobs s HI Hpc Hcl Hts)
    as (s' & Hrun & Hh & Hc & Hclosed).
  exists s'. repeat split; try done.
  - rewrite Hh, !called_app. simpl. rewrite app_nil_r. f_equal.
    clear. induction jobs as [|[f e] jobs IH]; simpl; [done|].
    by rewrite IH.
  - destruct (run_after_shutdown RunHEAD _ s s' Hcl Hrun) as (_ & Hb & _).
    rewrite Hh, !dequeued_app, Hts in Hb. simpl in Hb.
    rewrite app_nil_r, <- app_assoc in Hb. apply app_inv_head in Hb.
    assert (Hd : dequeued (consumed jobs) = (λ j, Some j.1) <$> jobs).
    { clear. induction jobs as [|[f e] jobs IH]; simpl; [done|].
      by rewrite IH. }
    rewrite Hd in Hb.
    rewrite <- (app_nil_r ((λ j, Some j.1) <$> jobs)) in Hb at 2.
    by apply app_inv_head in Hb.
Qed.

(** The [processNextItem] loop does not drain: from a state the queue can
    get into, with [closing] set and the loop at its dequeue section, that
    section ends [Run] and fires [Closed] at once; the tasks buffered at
    that moment stay in the buffer and are never called, whatever happens
    later. *)
Theorem Incoming_loop_leaves_buffer d name s :
  reachable RunIncoming d name s →
  consumer s = CLoop → closing (q s) = true →
  ∃ s', step RunIncoming LGet s = Some s'
        ∧ consumer s' = CReturned
        ∧ Closed (q s') = ChClosed
        ∧ history s' = history s ++ [EvClose]
        ∧ ∀ ls s'', run RunIncoming ls s' = Some s'' →
            tasks (q s'') = tasks (q s)
            ∧ called (history s'') = called (history s).
Proof.
  intros HI%Inv_reachable Hpc Hcl.
  destruct (Run_Incoming_leaves d s HI Hpc Hcl)
    as (s' & Hs & Hh & Hts & Hc & Hclosed).
  exists s'. repeat split; try done.
  - assert (Hcl' : closing (q s') = true).
    { eapply (run_closing RunIncoming [LGet]); [exact Hcl|].
      by rewrite run_one. }
    destruct (run_after_shutdown RunIncoming ls s' s'' Hcl' H)
      as (_ & _ & _ & Hfr).
    destruct Hfr as [-> _]; [by rewrite Hc | done].
  - destruct (run_after_finished RunIncoming ls s' s'') as [_ ->];
      [by rewrite Hc | done |].
    rewrite Hh, called_app. simpl. by rewrite app_nil_r.
Qed.

(** A retry that comes due after shutdown is dropped: in a state the queue
    can get into with [closing] set, the function of a timer can run only
    once its delay has elapsed, and then it removes the timer and leaves the
    queue as it is, so the failed task is not buffered again. *)
Theorem retry_after_shutdown_is_dropped v d name s (i : nat) (tm : @timer Fn) :
  reachable v d name s → closing (q s) = true → timers s !! i = Some tm →
  step v (LFire i) s
  = (if (armed_at tm + after tm <=? now s)%Z
     then Some (set_timers (delete i (timers s)) s)
     else None)
  ∧ after tm = delay (q s).
Proof.
  intros HI%Inv_reachable Hcl Ht. split.
  - simpl. rewrite Ht. unfold due.
    destruct (armed_at tm + after tm <=? now s)%Z; [|done].
    assert (Hcd : cond (q s) = false).
    { destruct HI as (_ & _ & _ & Hp & _). destruct (cond (q s)); [|done].
      destruct Hp as [Hp _]; congruence. }
    unfold Push. rewrite Hcl. simpl. rewrite cond_Signal_awake by done.
    by destruct s.
  - destruct HI as (Hd & _ & Hf & _). rewrite Hd.
    rewrite Forall_lookup in Hf. by apply (Hf i).
Qed.


Lemma timer_ok_mono s s' (tm : @timer Fn) :
  (now s ≤ now s')%Z → (∃ h', history s' = history s ++ h') →
  timer_ok s tm → timer_ok s' tm.
Proof.
  intros Hn [h' Hh] (H1 & H2 & H3). repeat split; [lia | done |].
  rewrite Hh. apply elem_of_app. by left.
Qed.

(** What one step does to the pending timers. *)
Lemma step_timers v l s s' :
  step v l s = Some s' →
  timers s' = timers s
  ∨ (∃ i, timers s' = delete i (timers s))
  ∨ (∃ f d0, timers s' = timers s ++ [mkTimer (now s) d0 (Some f)]
             ∧ EvCall (Some f) ∈ history s').
Proof.
  destruct l as [item| | | | |o|t|i]; simpl.
  - intros [= <-]. by left.
  - destruct (consumer s); try done. intros [= <-]. by left.
  - destruct (stop s); try done. intros [= <-]. by left.
  - destruct (watcher s); try done. destruct (stop s); try done.
    intros [= <-]. by left.
  - destruct (consumer s); try done. destruct (cond (q s)); try done.
    intros [= <-]. left. unfold loop_get.
    destruct (dequeue v (q s)) as [x'|p|task [] x']; try done.
    + by destruct (Run_leave_frame (CPanicked p) s)
        as (_ & _ & _ & _ & _ & _ & -> & _).
    + by destruct (Run_leave_frame CReturned (set_q x' s))
        as (_ & _ & _ & _ & _ & _ & -> & _).
  - destruct (consumer s) as [| |task| |]; try done.
    intros [= <-]. unfold loop_exec.
    destruct task as [f|], o as [[e|]|]; simpl;
      try (left;
           match goal with
           | |- context [Run_leave ?c ?t] =>
               by destruct (Run_leave_frame c t)
                 as (_ & _ & _ & _ & _ & _ & -> & _)
           end);
      try by left.
    right. right. exists f, (delay (q s)). split; [done|].
    apply elem_of_app. right. by apply list_elem_of_singleton.
  - destruct (0 <=? t)%Z; try done. intros [= <-]. by left.
  - destruct (timers s !! i) as [tm|]; [|done].
    destruct (due tm s); try done. intros [= <-]. right. left. by exists i.
Qed.

(** Pending retries: in every state the queue can get into, each pending
    timer was armed at a time that is not in the future, for a task that is
    not nil and that the loop has called. *)
Theorem pending_retries_are_of_called_tasks v d name s :
  reachable v d name s → Forall (timer_ok s) (timers s).
Proof.
  intros [ls Hls].
  eapply (invariant_run (λ s0, Forall (timer_ok s0) (timers s0)) v d);
    [| | |exact Hls]; [|apply Inv_boot|by constructor].
  intros l s0 s1 _ HP Hs.
  destruct (step_grows _ _ _ _ Hs) as [Hn Hh].
  assert (Hold : Forall (timer_ok s1) (timers s0)).
  { eapply Forall_impl; [exact HP|]. intros tm. by apply timer_ok_mono. }
  destruct (step_timers _ _ _ _ Hs) as [-> | [[i ->] | (f & d0 & -> & Hin)]].
  - done.
  - by apply Forall_delete.
  - apply Forall_app. split; [done|]. constructor; [|constructor].
    repeat split; simpl; done.
Qed.

Lemma Push_id x item : id (Push x item) = id x.
Proof. unfold Push. by destruct (closing x). Qed.

Lemma Logs_ok_same d name s s' :
  id (q s') = id (q s) → logs s' = logs s → consumer s' = consumer s →
  Logs_ok d name s → Logs_ok d name s'.
Proof. unfold Logs_ok. intros -> -> ->. done. Qed.

Lemma Logs_ok_leave d name c s :
  Inv d s → Logs_ok d name s →
  finished (consumer s) = false → consumer s ≠ CNotStarted →
  finished c = true →
  Logs_ok d name (Run_leave c s).
Proof.
  intros (_ & _ & _ & _ & Ho & Hc & _) (Hid & Hall & Hst & _) Hf Hns Hfc.
  rewrite Hf in Ho, Hc. rewrite Run_leave_first by done.
  unfold Logs_ok. simpl. rewrite Hid. repeat split; try done.
  - apply Forall_app. split; [done|]. by constructor.
  - destruct (consumer s); try done; destruct Hst as [rest ->];
      destruct c; try done; by eexists.
  - intros _. by eexists.
Qed.

Lemma Logs_ok_step v d name l s s' :
  Inv d s → Logs_ok d name s → step v l s = Some s' → Logs_ok d name s'.
Proof.
  intros HI HL Hs. pose proof HL as (Hid & Hall & Hst & Hfin).
  destruct l as [item| | | | |o|t|i]; simpl in Hs.
  - injection Hs as <-.
    apply (Logs_ok_same d name s); try done. exact (Push_id (q s) item).
  - destruct (consumer s) eqn:Ec; try done. injection Hs as <-.
    unfold Logs_ok. simpl. rewrite Hst, Hid. simpl.
    repeat split; try done; [by repeat constructor | by eexists].
  - destruct (stop s); try done. by injection Hs as <-.
  - destruct (watcher s); try done. destruct (stop s); try done.
    by injection Hs as <-.
  - destruct (consumer s) eqn:Ec; try done.
    destruct (cond (q s)); try done. injection Hs as <-. unfold loop_get.
    destruct (dequeue v (q s)) as [x'|p|task [] x'] eqn:Eg.
    + apply dequeue_wait in Eg as (_ & _ & ->).
      unfold Logs_ok. simpl. by rewrite Ec.
    + by apply dequeue_no_panic in Eg.
    + apply dequeue_shutdown in Eg as (_ & _ & ->). rewrite set_q_same.
      apply Logs_ok_leave; try done; by rewrite Ec.
    + apply dequeue_task in Eg as (_ & ->). unfold Logs_ok. simpl.
      repeat split; done.
  - destruct (consumer s) as [| |task| |] eqn:Ec; try done.
    injection Hs as <-.
    assert (HL1 : Logs_ok d name (record (EvCall task) s)).
    { unfold Logs_ok. simpl. by rewrite Ec. }
    assert (HI1 : Inv d (record (EvCall task) s)).
    { apply Inv_record; [done..|]. by rewrite Ec. }
    unfold loop_exec. destruct task as [f|], o as [[e|]|];
      try (apply Logs_ok_leave; simpl; try done; by rewrite Ec).
    + destruct Hst as [rest Hst]. destruct HI as (Hd & _).
      unfold Logs_ok. simpl. rewrite Hst. repeat split; try done.
      * rewrite <- Hst. apply Forall_app. split; [done|]. by repeat constructor.
      * by eexists.
    + unfold Logs_ok. simpl. repeat split; done.
  - destruct (0 <=? t)%Z; try done. by injection Hs as <-.
  - destruct (timers s !! i) as [tm|]; [|done].
    destruct (due tm s); try done. injection Hs as <-.
    apply (Logs_ok_same d name s); try done.
    exact (Push_id (q s) (payload tm)).
Qed.

(** The diagnostics: in every state a queue built with delay [d] and
    identifier [name] can get into, the [id] field still is [name]; every
    debug line carries [name] and every failure line reports the delay [d];
    once [Run] has been called the first line is the one of line 122; and
    once [Run] is over the last line is the one of line 125. *)
Theorem diagnostics_report_id_and_delay v d name s :
  reachable v d name s → Logs_ok d name s.
Proof.
  intros [ls Hls].
  eapply (invariant_run (Logs_ok d name) v d); [| | |exact Hls].
  - intros. by eapply Logs_ok_step.
  - apply Inv_boot.
  - unfold Logs_ok. simpl. repeat split; done.
Qed.

(** The cases of [processNextItem]: it blocks only with [closing] unset and
    nothing buffered; it returns false only with [closing] set, and then has
    changed nothing; with [closing] unset and a task at the head it takes
    that task and returns true whether the task returned nil or an error,
    arming the retry in the second case only; it panics only on a nil task
    or a panic of the task's body, never on the index. *)
Theorem processNextItem_cases (o : @outcome Err) s :
  match processNextItem o s with
  | None => closing (q s) = false ∧ tasks (q s) = []
  | Some (RetBool false s') => closing (q s) = true ∧ s' = s
  | Some (RetBool true s') =>
      closing (q s) = false
      ∧ ∃ f rest,
          tasks (q s) = Some f :: rest
          ∧ q s' = set_tasks rest (q s)
          ∧ history s' = history s ++ [EvDequeue (Some f); EvCall (Some f)]
          ∧ match o with
            | Returned None => timers s' = timers s ∧ logs s' = logs s
            | Returned (Some _) =>
                timers s'
                = timers s ++ [mkTimer (now s) (delay (q s)) (Some f)]
            | Panicked => False
            end
  | Some (RetPanic p s') =>
      closing (q s) = false
      ∧ ∃ task rest,
          tasks (q s) = task :: rest
          ∧ q s' = set_tasks rest (q s)
          ∧ timers s' = timers s
          ∧ (task = None ∧ p = NilCall ∨ o = Panicked ∧ p = TaskPanic)
  end.
Proof.
  unfold processNextItem.
  destruct (get (q s)) as [x'|p|task [] x'] eqn:Eg.
  - apply (dequeue_wait RunIncoming) in Eg. tauto.
  - by apply get_no_panic in Eg.
  - apply get_shutdown_iff in Eg as (Hc & _ & ->). by rewrite set_q_same.
  - assert (Hc : closing (q s) = false).
    { destruct (closing (q s)) eqn:Hc; [|done].
      unfold get, must_wait in Eg. rewrite Hc in Eg. done. }
    apply (dequeue_task RunIncoming) in Eg as (Hts & Hx').
    destruct task as [f|], o as [[e|]|]; split; try done.
    + exists f, (tasks x'). simpl. rewrite <- app_assoc, Hx'. done.
    + exists f, (tasks x'). simpl. rewrite <- app_assoc. done.
    + exists (Some f), (tasks x'). simpl. repeat split; try done. by right.
    + exists None, (tasks x'). simpl. repeat split; try done. by left.
    + exists None, (tasks x'). simpl. repeat split; try done. by left.
    + exists None, (tasks x'). simpl. repeat split; try done. by left.
Qed.

End Extras.

(** ** The further properties on the sample tasks *)

Lemma no_lost_wakeup_witness :
  reachable RunIncoming 5%Z "demo" Sample.stopped_with_two
  ∧ consumer Sample.stopped_with_two = CLoop
  ∧ ∃ s' : Sample.S,
      step RunIncoming LGet Sample.stopped_with_two = Some s'
      ∧ consumer s' ≠ CLoop ∧ cond (q s') = false.
Proof.
  assert (H : reachable RunIncoming 5%Z "demo" Sample.stopped_with_two)
    by (exists Sample.stop_with_two; reflexivity).
  split; [exact H|]. split; [reflexivity|].
  destruct (no_lost_wakeup RunIncoming 5%Z "demo" Sample.stopped_with_two
              H eq_refl) as (_ & _ & Hgo).
  exact (Hgo (or_introl eq_refl)).
Defined.

Lemma Push_wakes_parked_consumer_witness :
  reachable RunHEAD 5%Z "demo" Sample.parked
  ∧ cond (q Sample.parked) = true
  ∧ ∃ s' : Sample.S,
      run RunHEAD [LPush Sample.t1; LGet] Sample.parked = Some s'
      ∧ consumer s' = CExec Sample.t1
      ∧ tasks (q s') = []
      ∧ history s' = history Sample.parked ++ [EvDequeue Sample.t1].
Proof.
  assert (H : reachable RunHEAD 5%Z "demo" Sample.parked)
    by (exists Sample.park; reflexivity).
  split; [exact H|]. split; [reflexivity|].
  exact (Push_wakes_parked_consumer RunHEAD 5%Z "demo" Sample.parked
           Sample.t1 H eq_refl).
Defined.

Lemma stop_wakes_parked_consumer_witness :
  reachable RunIncoming 5%Z "demo" Sample.parked_at_stop
  ∧ cond (q Sample.parked_at_stop) = true
  ∧ stop Sample.parked_at_stop = true
  ∧ ∃ s' : Sample.S,
      run RunIncoming [LWatch; LGet] Sample.parked_at_stop = Some s'
      ∧ consumer s' = CReturned
      ∧ Closed (q s') = ChClosed
      ∧ history s' = history Sample.parked_at_stop ++ [EvClose].
Proof.
  assert (H : reachable RunIncoming 5%Z "demo" Sample.parked_at_stop)
    by (exists Sample.park_then_stop; reflexivity).
  split; [exact H|]. split; [reflexivity|]. split; [reflexivity|].
  exact (stop_wakes_parked_consumer RunIncoming 5%Z "demo"
           Sample.parked_at_stop H eq_refl eq_refl).
Defined.

Lemma buffer_is_fifo_witness :
  run RunHEAD Sample.retry_pending_at_stop (boot Sample.fresh)
  = Some Sample.stopped_with_retry
  ∧ dequeued (history Sample.stopped_with_retry)
    ++ tasks (q Sample.stopped_with_retry)
    = dequeued (history (boot (Err := string) Sample.fresh))
      ++ tasks Sample.fresh
      ++ admitted RunHEAD Sample.retry_pending_at_stop (boot Sample.fresh).
Proof.
  assert (H : run RunHEAD Sample.retry_pending_at_stop (boot Sample.fresh)
              = Some Sample.stopped_with_retry) by reflexivity.
  split; [exact H|].
  exact (buffer_is_fifo RunHEAD Sample.retry_pending_at_stop
           (boot Sample.fresh) Sample.stopped_with_retry H).
Defined.

Lemma calls_follow_dequeues_witness :
  run RunIncoming Sample.take_nil (boot (NewQueueWithID 5%Z "demo"))
  = Some Sample.holding_nil
  ∧ called (history Sample.holding_nil) ++ held (consumer Sample.holding_nil)
    = dequeued (history Sample.holding_nil)
  ∧ length (held (consumer Sample.holding_nil)) ≤ 1.
Proof.
  assert (H : run RunIncoming Sample.take_nil (boot (NewQueueWithID 5%Z "demo"))
              = Some Sample.holding_nil) by reflexivity.
  split; [exact H|].
  destruct (calls_follow_dequeues RunIncoming 5%Z "demo" Sample.take_nil
              Sample.holding_nil H) as (H1 & H2 & _).
  split; [exact H1 | exact H2].
Defined.

Lemma buffer_after_shutdown_witness :
  closing (q Sample.stopped_with_two) = true
  ∧ run RunHEAD [LPush Sample.t3; LGet] Sample.stopped_with_two
    = Some (set_consumer (CExec Sample.t1)
              (record (EvDequeue Sample.t1)
                 (set_q (set_tasks [Sample.t2] Sample.closing_with_two)
                        Sample.stopped_with_two)))
  ∧ length (tasks (set_tasks [Sample.t2] Sample.closing_with_two))
    ≤ length (tasks (q Sample.stopped_with_two)).
Proof.
  assert (H : run RunHEAD [LPush Sample.t3; LGet] Sample.stopped_with_two
              = Some (set_consumer (CExec Sample.t1)
                        (record (EvDequeue Sample.t1)
                           (set_q (set_tasks [Sample.t2] Sample.closing_with_two)
                                  Sample.stopped_with_two))))
    by reflexivity.
  split; [reflexivity|]. split; [exact H|].
  destruct (buffer_after_shutdown RunHEAD [LPush Sample.t3; LGet]
              Sample.stopped_with_two _ eq_refl H) as (_ & _ & Hl & _).
  exact Hl.
Defined.

Lemma HEAD_loop_drains_then_closes_witness :
  reachable RunHEAD 5%Z "demo" Sample.stopped_with_two
  ∧ consumer Sample.stopped_with_two = CLoop
  ∧ closing (q Sample.stopped_with_two) = true
  ∧ tasks (q Sample.stopped_with_two) = (λ j, Some j.1) <$> Sample.two_jobs
  ∧ ∃ s' : Sample.S,
      run RunHEAD (consume Sample.two_jobs ++ [LGet]) Sample.stopped_with_two
      = Some s'
      ∧ called (history s')
        = called (history Sample.stopped_with_two)
          ++ ((λ j, Some j.1) <$> Sample.two_jobs)
      ∧ tasks (q s') = []
      ∧ Closed (q s') = ChClosed.
Proof.
  assert (H : reachable RunHEAD 5%Z "demo" Sample.stopped_with_two)
    by (exists Sample.stop_with_two; reflexivity).
  split; [exact H|]. do 3 (split; [reflexivity|]).
  destruct (HEAD_loop_drains_then_closes 5%Z "demo" Sample.stopped_with_two
              Sample.two_jobs H eq_refl eq_refl eq_refl)
    as (s' & Hrun & _ & Hc & Ht & _ & Hcl).
  exists s'. split; [exact Hrun|]. split; [exact Hc|].
  split; [exact Ht | exact Hcl].
Defined.

Lemma Incoming_loop_leaves_buffer_witness :
  reachable RunIncoming 5%Z "demo" Sample.stopped_with_two
  ∧ consumer Sample.stopped_with_two = CLoop
  ∧ closing (q Sample.stopped_with_two) = true
  ∧ ∃ s' : Sample.S,
      step RunIncoming LGet Sample.stopped_with_two = Some s'
      ∧ consumer s' = CReturned
      ∧ Closed (q s') = ChClosed
      ∧ history s' = history Sample.stopped_with_two ++ [EvClose].
Proof.
  assert (H : reachable RunIncoming 5%Z "demo" Sample.stopped_with_two)
    by (exists Sample.stop_with_two; reflexivity).
  split; [exact H|]. do 2 (split; [reflexivity|]).
  destruct (Incoming_loop_leaves_buffer 5%Z "demo" Sample.stopped_with_two
              H eq_refl eq_refl) as (s' & Hs & Hc & Hcl & Hh & _).
  exists s'. split; [exact Hs|]. split; [exact Hc|].
  split; [exact Hcl | exact Hh].
Defined.

Lemma retry_after_shutdown_is_dropped_witness :
  reachable RunHEAD 5%Z "demo" Sample.stopped_with_retry
  ∧ closing (q Sample.stopped_with_retry) = true
  ∧ timers Sample.stopped_with_retry !! 0%nat = Some (mkTimer 0%Z 5%Z Sample.t1)
  ∧ step RunHEAD (LFire 0%nat) Sample.stopped_with_retry
    = Some (set_timers [] Sample.stopped_with_retry).
Proof.
  assert (H : reachable RunHEAD 5%Z "demo" Sample.stopped_with_retry)
    by (exists Sample.retry_pending_at_stop; reflexivity).
  split; [exact H|]. do 2 (split; [reflexivity|]).
  exact (proj1 (retry_after_shutdown_is_dropped RunHEAD 5%Z "demo"
                  Sample.stopped_with_retry 0%nat (mkTimer 0%Z 5%Z Sample.t1)
                  H eq_refl eq_refl)).
Defined.


Lemma pending_retries_are_of_called_tasks_witness :
  reachable RunHEAD 5%Z "demo" Sample.stopped_with_retry
  ∧ Forall (timer_ok Sample.stopped_with_retry)
           (timers Sample.stopped_with_retry).
Proof.
  assert (H : reachable RunHEAD 5%Z "demo" Sample.stopped_with_retry)
    by (exists Sample.retry_pending_at_stop; reflexivity).
  split; [exact H|].
  exact (pending_retries_are_of_called_tasks RunHEAD 5%Z "demo"
           Sample.stopped_with_retry H).
Defined.

Lemma diagnostics_report_id_and_delay_witness :
  reachable RunHEAD 5%Z "demo" Sample.stopped_with_retry
  ∧ Logs_ok 5%Z "demo" Sample.stopped_with_retry.
Proof.
  assert (H : reachable RunHEAD 5%Z "demo" Sample.stopped_with_retry)
    by (exists Sample.retry_pending_at_stop; reflexivity).
  split; [exact H|].
  exact (diagnostics_report_id_and_delay RunHEAD 5%Z "demo"
           Sample.stopped_with_retry H).
Defined.
